(** * Phaser.Animation: the frame-sequence player of [animation/Animation.ts]

    A shallow embedding of the class [Phaser.Animation] and the proofs of its
    playback properties.

    - JavaScript objects live in a store ([Heap]) and are named by addresses;
      fields that the class sets to [null] hold an [option].
    - Every method is a computation in a small state-and-exception monad: a
      property access through [null] raises a [TypeError], which leaves the
      store as it was at that point.
    - Time stamps and the frame delay are IEEE 754 doubles ([PrimFloat.float]),
      with the machine's addition, division and comparison.
    - The sequence cursor and the frame keys are array indices, kept as [Z];
      the sizes of frames and textures are kept as [Z] too.
    - Dispatching a signal records its arguments; the listeners of the parent
      sprite are not part of the class and are not run. *)

From Stdlib Require Import ZArith Bool List Lia PrimFloat FloatOps FloatAxioms SpecFloat.
From stdpp Require Import base option list gmap strings.

Local Open Scope Z_scope.

(** Addresses of objects in the store. *)
Abbreviation loc := positive.

(** ** Collaborators

    [Frame], [FrameData], [Sprite], its texture and its event signals, and
    [Game] are declared in [_definitions.ts], outside this file. *)

(** Modelled from the spec: the frame descriptor [{index, width, height}]
    handed out by the frame table. *)
Module Frame.
Record t : Type := Build { index : Z; width : Z; height : Z }.
End Frame.

(** Modelled from the spec: the frame table, a read-only lookup from a frame
    key to its descriptor. *)
Module FrameData.
Abbreviation t := (gmap Z Frame.t).

(** Modelled from the spec: [getFrame(key)] is the descriptor stored under
    [key], or [null] when there is none.  The key is [None] when the caller
    passes [undefined] (an array read out of range). *)
Definition getFrame (fd : t) (key : option Z) : option Frame.t :=
    match key with
    | Some k => fd !! k
    | None => None
    end.
End FrameData.

(** Modelled from the spec: the parent's mutable texture-size pair. *)
Module Texture.
Record t : Type := Build { width : Z; height : Z }.
End Texture.

(** Modelled from the spec: an event channel accepting [(parent, animation)].
    A signal is represented by the arguments it has been dispatched with,
    oldest first; listeners are outside the scope of the class. *)
Module Signal.
Abbreviation t := (list (loc * loc)).
End Signal.

(** Modelled from the spec: the three channels of the parent's event sink. *)
Module Events.
Record t : Type := Build {
    onAnimationStart : Signal.t;
    onAnimationLoop : Signal.t;
    onAnimationComplete : Signal.t
  }.
End Events.

(** The names of the three channels. *)
Inductive Channel : Type := Started | Looped | Completed.

(** Modelled from the spec: the parent visual, with its texture size and its
    event sink. *)
Module Sprite.
Record t : Type := Build { texture : Texture.t; events : Events.t }.

Definition set_texture_width (w : Z) (s : t) : t :=
    Build (Texture.Build w (Texture.height (texture s))) (events s).

Definition set_texture_height (hh : Z) (s : t) : t :=
    Build (Texture.Build (Texture.width (texture s)) hh) (events s).

Definition signal (c : Channel) (s : t) : Signal.t :=
    match c with
    | Started => Events.onAnimationStart (events s)
    | Looped => Events.onAnimationLoop (events s)
    | Completed => Events.onAnimationComplete (events s)
    end.

(** [signal.dispatch(args)] on channel [c]. *)
Definition dispatched (c : Channel) (args : loc * loc) (s : t) : t :=
    let e := events s in
    Build (texture s)
      match c with
      | Started =>
          Events.Build (Events.onAnimationStart e ++ [args])
            (Events.onAnimationLoop e) (Events.onAnimationComplete e)
      | Looped =>
          Events.Build (Events.onAnimationStart e)
            (Events.onAnimationLoop e ++ [args]) (Events.onAnimationComplete e)
      | Completed =>
          Events.Build (Events.onAnimationStart e)
            (Events.onAnimationLoop e) (Events.onAnimationComplete e ++ [args])
      end.
End Sprite.

(** Modelled from the spec: the clock, [game.time.now], in milliseconds. *)
Module Time.
Record t : Type := Build { now : float }.
End Time.

(** Modelled from the spec: the game object, which holds the clock. *)
Module Game.
Record t : Type := Build { time : Time.t }.
End Game.

(** ** The fields of an [Animation] object

    [_timeLastFrame] and [_timeNextFrame] are declared but not assigned by the
    constructor: they are [undefined] ([None]) until [play] or [restart]. *)
Record Animation : Type := mkAnimation {
  game : option loc;
  _parent : option loc;
  _frames : option (list Z);
  _frameData : option FrameData.t;
  _frameIndex : Z;
  _timeLastFrame : option float;
  _timeNextFrame : option float;
  name : string;
  currentFrame : option Frame.t;
  isFinished : bool;
  isPlaying : bool;
  looped : bool;
  delay : float
}.

(** Field assignments, one per field that some method writes. *)
Definition set_game (v : option loc) (a : Animation) : Animation :=
  mkAnimation v (_parent a) (_frames a) (_frameData a) (_frameIndex a)
    (_timeLastFrame a) (_timeNextFrame a) (name a) (currentFrame a)
    (isFinished a) (isPlaying a) (looped a) (delay a).

Definition set__parent (v : option loc) (a : Animation) : Animation :=
  mkAnimation (game a) v (_frames a) (_frameData a) (_frameIndex a)
    (_timeLastFrame a) (_timeNextFrame a) (name a) (currentFrame a)
    (isFinished a) (isPlaying a) (looped a) (delay a).

Definition set__frames (v : option (list Z)) (a : Animation) : Animation :=
  mkAnimation (game a) (_parent a) v (_frameData a) (_frameIndex a)
    (_timeLastFrame a) (_timeNextFrame a) (name a) (currentFrame a)
    (isFinished a) (isPlaying a) (looped a) (delay a).

Definition set__frameData (v : option FrameData.t) (a : Animation) : Animation :=
  mkAnimation (game a) (_parent a) (_frames a) v (_frameIndex a)
    (_timeLastFrame a) (_timeNextFrame a) (name a) (currentFrame a)
    (isFinished a) (isPlaying a) (looped a) (delay a).

Definition set__frameIndex (v : Z) (a : Animation) : Animation :=
  mkAnimation (game a) (_parent a) (_frames a) (_frameData a) v
    (_timeLastFrame a) (_timeNextFrame a) (name a) (currentFrame a)
    (isFinished a) (isPlaying a) (looped a) (delay a).

Definition set__timeLastFrame (v : option float) (a : Animation) : Animation :=
  mkAnimation (game a) (_parent a) (_frames a) (_frameData a) (_frameIndex a)
    v (_timeNextFrame a) (name a) (currentFrame a)
    (isFinished a) (isPlaying a) (looped a) (delay a).

Definition set__timeNextFrame (v : option float) (a : Animation) : Animation :=
  mkAnimation (game a) (_parent a) (_frames a) (_frameData a) (_frameIndex a)
    (_timeLastFrame a) v (name a) (currentFrame a)
    (isFinished a) (isPlaying a) (looped a) (delay a).

Definition set_currentFrame (v : option Frame.t) (a : Animation) : Animation :=
  mkAnimation (game a) (_parent a) (_frames a) (_frameData a) (_frameIndex a)
    (_timeLastFrame a) (_timeNextFrame a) (name a) v
    (isFinished a) (isPlaying a) (looped a) (delay a).

Definition set_isFinished (v : bool) (a : Animation) : Animation :=
  mkAnimation (game a) (_parent a) (_frames a) (_frameData a) (_frameIndex a)
    (_timeLastFrame a) (_timeNextFrame a) (name a) (currentFrame a)
    v (isPlaying a) (looped a) (delay a).

Definition set_isPlaying (v : bool) (a : Animation) : Animation :=
  mkAnimation (game a) (_parent a) (_frames a) (_frameData a) (_frameIndex a)
    (_timeLastFrame a) (_timeNextFrame a) (name a) (currentFrame a)
    (isFinished a) v (looped a) (delay a).

Definition set_looped (v : bool) (a : Animation) : Animation :=
  mkAnimation (game a) (_parent a) (_frames a) (_frameData a) (_frameIndex a)
    (_timeLastFrame a) (_timeNextFrame a) (name a) (currentFrame a)
    (isFinished a) (isPlaying a) v (delay a).

Definition set_delay (v : float) (a : Animation) : Animation :=
  mkAnimation (game a) (_parent a) (_frames a) (_frameData a) (_frameIndex a)
    (_timeLastFrame a) (_timeNextFrame a) (name a) (currentFrame a)
    (isFinished a) (isPlaying a) (looped a) v.

(** ** The store *)
Record Heap : Type := mkHeap {
  animations : gmap loc Animation;
  sprites : gmap loc Sprite.t;
  games : gmap loc Game.t
}.

Definition with_animations (m : gmap loc Animation) (h : Heap) : Heap :=
  mkHeap m (sprites h) (games h).

Definition with_sprites (m : gmap loc Sprite.t) (h : Heap) : Heap :=
  mkHeap (animations h) m (games h).

(** ** Computations: store passing with [TypeError] *)
Inductive result (A : Type) : Type :=
| Ok (v : A) (h : Heap)
| Throw (h : Heap).
Arguments Ok {A} v h.
Arguments Throw {A} h.

Definition M (A : Type) : Type := Heap -> result A.

Definition ret {A} (v : A) : M A := fun h => Ok v h.

Definition bind {A B} (m : M A) (k : A -> M B) : M B :=
  fun h =>
    match m h with
    | Ok v h' => k v h'
    | Throw h' => Throw h'
    end.

Definition throw {A} : M A := fun h => Throw h.

Declare Scope js_scope.
Delimit Scope js_scope with js.
Notation "'let*' x ':=' m 'in' k" := (bind m (fun x => k))
  (at level 10, x name, m at level 100, k at level 200) : js_scope.
Notation "m ';;' k" := (bind m (fun _ => k))
  (at level 100, k at level 200, right associativity) : js_scope.
Local Open Scope js_scope.

(** The store a computation ends in, whether it returns or throws. *)
Definition final {A} (r : result A) : Heap :=
  match r with
  | Ok _ h => h
  | Throw h => h
  end.

(** Reading through a reference that may be [null]. *)
Definition nonnull {A} (o : option A) : M A :=
  match o with
  | Some v => ret v
  | None => throw
  end.

(** The receiver [this].  An address always names an object in JavaScript; the
    model raises on a dangling one, and the theorems assume there is none. *)
Definition this (self : loc) : M Animation :=
  fun h => nonnull (animations h !! self) h.

(** [this.f = v]. *)
Definition assign (self : loc) (f : Animation -> Animation) : M unit :=
  let* a := this self in
  fun h => Ok tt (with_animations (<[self := f a]> (animations h)) h).

Definition load_game (g : loc) : M Game.t :=
  fun h => nonnull (games h !! g) h.

Definition load_sprite (p : loc) : M Sprite.t :=
  fun h => nonnull (sprites h !! p) h.

Definition store_sprite (p : loc) (s : Sprite.t) : M unit :=
  fun h => Ok tt (with_sprites (<[p := s]> (sprites h)) h).

(** JavaScript fragments shared by several methods. *)

(** [this.game.time.now] *)
Definition game_time_now (self : loc) : M float :=
  let* a := this self in
  let* g := nonnull (game a) in
  let* gm := load_game g in
  ret (Time.now (Game.time gm)).

(** [frames[i]]: [undefined] outside the array. *)
Definition array_get (fs : list Z) (i : Z) : option Z :=
  if i <? 0 then None else fs !! Z.to_nat i.

(** [x >= y] on numbers, where [y] may be [undefined], which converts to NaN
    and makes the comparison false. *)
Definition js_ge (x : float) (y : option float) : bool :=
  match y with
  | Some y' => PrimFloat.leb y' x
  | None => false
  end.

(** [this.currentFrame = this._frameData.getFrame(this._frames[this._frameIndex])] *)
Definition resolve_currentFrame (self : loc) : M unit :=
  let* a := this self in
  let* fd := nonnull (_frameData a) in
  let* fs := nonnull (_frames a) in
  assign self (set_currentFrame (FrameData.getFrame fd (array_get fs (_frameIndex a)))).

(** [this._parent.events.<channel>.dispatch(this._parent, this)] *)
Definition dispatch (c : Channel) (self : loc) : M unit :=
  let* a := this self in
  let* p := nonnull (_parent a) in
  let* s := load_sprite p in
  store_sprite p (Sprite.dispatched c (p, self) s).

(** [this._timeLastFrame = this.game.time.now;
     this._timeNextFrame = this.game.time.now + this.delay] *)
Definition stamp_times (self : loc) : M unit :=
  let* t := game_time_now self in
  assign self (set__timeLastFrame (Some t));;
  let* t' := game_time_now self in
  let* a := this self in
  assign self (set__timeNextFrame (Some (t' + delay a)%float)).

(** ** The class *)

(** [new Animation(game, parent, frameData, name, frames, delay, looped)]:
    the fields of the new object. *)
Definition constructor (game parent : loc) (frameData : FrameData.t)
    (name : string) (frames : list Z) (delay : float) (looped : bool) : Animation :=
  {| game := Some game;
     _parent := Some parent;
     _frames := Some frames;
     _frameData := Some frameData;
     name := name;
     delay := (1000 / delay)%float;
     looped := looped;
     isFinished := false;
     isPlaying := false;
     _frameIndex := 0;
     currentFrame := FrameData.getFrame frameData (array_get frames 0);
     _timeLastFrame := None;
     _timeNextFrame := None |}.

(** [get frameTotal] *)
Definition frameTotal (self : loc) : M Z :=
  let* a := this self in
  let* fs := nonnull (_frames a) in
  ret (Z.of_nat (length fs)).

(** [get frame] *)
Definition frame (self : loc) : M Z :=
  let* a := this self in
  match currentFrame a with
  | Some f => ret (Frame.index f)
  | None => ret (_frameIndex a)
  end.

(** [set frame(value)] *)
Definition set_frame (self : loc) (value : Z) : M unit :=
  (let* a := this self in
   let* fd := nonnull (_frameData a) in
   assign self (set_currentFrame (FrameData.getFrame fd (Some value))));;
  let* a := this self in
  match currentFrame a with
  | Some _ =>
      (let* a := this self in
       let* p := nonnull (_parent a) in
       let* s := load_sprite p in
       let* f := nonnull (currentFrame a) in
       store_sprite p (Sprite.set_texture_width (Frame.width f) s));;
      (let* a := this self in
       let* p := nonnull (_parent a) in
       let* s := load_sprite p in
       let* f := nonnull (currentFrame a) in
       store_sprite p (Sprite.set_texture_height (Frame.height f) s));;
      assign self (set__frameIndex value)
  | None => ret tt
  end.

(** [play(frameRate = null, loop = null)]; returns [this]. *)
Definition play (self : loc) (frameRate : option float) (loop : option bool) : M loc :=
  match frameRate with
  | Some r => assign self (set_delay (1000 / r)%float)
  | None => ret tt
  end;;
  match loop with
  | Some l => assign self (set_looped l)
  | None => ret tt
  end;;
  assign self (set_isPlaying true);;
  assign self (set_isFinished false);;
  stamp_times self;;
  assign self (set__frameIndex 0);;
  resolve_currentFrame self;;
  dispatch Started self;;
  ret self.

(** [restart()] *)
Definition restart (self : loc) : M unit :=
  assign self (set_isPlaying true);;
  assign self (set_isFinished false);;
  stamp_times self;;
  assign self (set__frameIndex 0);;
  resolve_currentFrame self.

(** [stop()] *)
Definition stop (self : loc) : M unit :=
  assign self (set_isPlaying false);;
  assign self (set_isFinished true).

(** [onComplete()] (private) *)
Definition onComplete (self : loc) : M unit :=
  assign self (set_isPlaying false);;
  assign self (set_isFinished true);;
  dispatch Completed self.

(** [update()] *)
Definition update (self : loc) : M bool :=
  let* a := this self in
  if isPlaying a then
    let* t := game_time_now self in
    let* a := this self in
    if js_ge t (_timeNextFrame a) then
      (let* a := this self in
       assign self (set__frameIndex (_frameIndex a + 1)));;
      (let* a := this self in
       let* fs := nonnull (_frames a) in
       if _frameIndex a =? Z.of_nat (length fs) then
         if looped a then
           assign self (set__frameIndex 0);;
           resolve_currentFrame self;;
           dispatch Looped self
         else
           onComplete self
       else
         resolve_currentFrame self);;
      stamp_times self;;
      ret true
    else ret false
  else ret false.

(** [destroy()] *)
Definition destroy (self : loc) : M unit :=
  assign self (set_game None);;
  assign self (set__parent None);;
  assign self (set__frames None);;
  assign self (set__frameData None);;
  assign self (set_currentFrame None);;
  assign self (set_isPlaying false).

(** ** The driver and the vocabulary of the statements *)

(** The method calls a driver can make on an instance. *)
Inductive Call : Type :=
| CallSetFrame (value : Z)
| CallPlay (frameRate : option float) (loop : option bool)
| CallRestart
| CallStop
| CallUpdate
| CallDestroy.

Definition run (c : Call) (self : loc) : M unit :=
  match c with
  | CallSetFrame v => set_frame self v
  | CallPlay r l => play self r l;; ret tt
  | CallRestart => restart self
  | CallStop => stop self
  | CallUpdate => update self;; ret tt
  | CallDestroy => destroy self
  end.

(** The clock moves between calls: the game at [g] now reads [t]. *)
Definition set_now (g : loc) (t : float) (h : Heap) : Heap :=
  mkHeap (animations h) (sprites h) (<[g := Game.Build (Time.Build t)]> (games h)).

(** The store [h] with the object at [self] replaced by [a]. *)
Definition put (self : loc) (a : Animation) (h : Heap) : Heap :=
  with_animations (<[self := a]> (animations h)) h.

(** The store [h] with the sprite at [p] replaced by [s]. *)
Definition put_sprite (p : loc) (s : Sprite.t) (h : Heap) : Heap :=
  with_sprites (<[p := s]> (sprites h)) h.

(** The instance stored at [self]. *)
Definition holds (h : Heap) (self : loc) (a : Animation) : Prop :=
  animations h !! self = Some a.

(** What [a.game.time.now] reads in [h], when [a.game] is not [null]. *)
Definition clock_of (h : Heap) (a : Animation) : option float :=
  match game a with
  | Some g =>
      match games h !! g with
      | Some gm => Some (Time.now (Game.time gm))
      | None => None
      end
  | None => None
  end.

(** The parent sprite of [a] and its address, when [a._parent] is not [null]. *)
Definition parent_of (h : Heap) (a : Animation) : option (loc * Sprite.t) :=
  match _parent a with
  | Some p =>
      match sprites h !! p with
      | Some s => Some (p, s)
      | None => None
      end
  | None => None
  end.

(** The cursor is a position of the frame sequence. *)
Definition in_range (a : Animation) : Prop :=
  match _frames a with
  | Some fs => 0 <= _frameIndex a < Z.of_nat (length fs)
  | None => False
  end.

(** The cursor is at the last position of the frame sequence [fs]. *)
Definition at_last (fs : list Z) (a : Animation) : Prop :=
  _frameIndex a + 1 = Z.of_nat (length fs).

(** What channel [c] has been dispatched with, per sprite. *)
Definition signals (c : Channel) (h : Heap) : gmap loc Signal.t :=
  Sprite.signal c <$> sprites h.

(** The texture size of each sprite. *)
Definition textures (h : Heap) : gmap loc Texture.t :=
  Sprite.texture <$> sprites h.

(** The rate and loop overrides of [play]. *)
Definition overridden (frameRate : option float) (loop : option bool)
    (a : Animation) : Animation :=
  let a1 := match frameRate with
            | Some r => set_delay (1000 / r)%float a
            | None => a
            end in
  match loop with
  | Some l => set_looped l a1
  | None => a1
  end.

(** The effect of the two timing assignments at clock reading [t]. *)
Definition stamped (t : float) (a : Animation) : Animation :=
  set__timeNextFrame (Some (t + delay a)%float) (set__timeLastFrame (Some t) a).

(** The fields after the state reset shared by [play] and [restart], at clock
    reading [t], with frame sequence [fs] and frame table [fd]. *)
Definition reset_at (t : float) (fs : list Z) (fd : FrameData.t) (a : Animation) : Animation :=
  {| game := game a;
     _parent := _parent a;
     _frames := _frames a;
     _frameData := _frameData a;
     _frameIndex := 0;
     _timeLastFrame := Some t;
     _timeNextFrame := Some (t + delay a)%float;
     name := name a;
     currentFrame := FrameData.getFrame fd (array_get fs 0);
     isFinished := false;
     isPlaying := true;
     looped := looped a;
     delay := delay a |}.

(** The fields after [destroy]. *)
Definition destroyed (a : Animation) : Animation :=
  {| game := None;
     _parent := None;
     _frames := None;
     _frameData := None;
     _frameIndex := _frameIndex a;
     _timeLastFrame := _timeLastFrame a;
     _timeNextFrame := _timeNextFrame a;
     name := name a;
     currentFrame := None;
     isFinished := isFinished a;
     isPlaying := false;
     looped := looped a;
     delay := delay a |}.

(** The call of [update()] on [a] in [h] is the completing one: a due advance
    of a playing, non-looped instance from the last position. *)
Definition completing (h : Heap) (a : Animation) : bool :=
  isPlaying a && negb (looped a) &&
  match clock_of h a, _frames a with
  | Some t, Some fs =>
      js_ge t (_timeNextFrame a) && (_frameIndex a + 1 =? Z.of_nat (length fs))
  | _, _ => false
  end.

(** [value] is a key of the frame table of [a] that is not a position of its
    frame sequence. *)
Definition seeks_outside (a : Animation) (value : Z) : bool :=
  match _frameData a, _frames a with
  | Some fd, Some fs =>
      match fd !! value with
      | Some _ => negb ((0 <=? value) && (value <? Z.of_nat (length fs)))
      | None => false
      end
  | _, _ => false
  end.

(** The calls covered by the range invariant. *)
Definition keeps_range (c : Call) (h : Heap) (a : Animation) : bool :=
  match c with
  | CallSetFrame value => negb (seeks_outside a value)
  | CallUpdate => negb (completing h a)
  | CallDestroy => false
  | CallPlay _ _ | CallRestart | CallStop => true
  end.

(** ** A small world for the examples *)

Definition atlas : FrameData.t :=
  list_to_map
    [(0, Frame.Build 0 32 48); (1, Frame.Build 1 32 48);
     (2, Frame.Build 2 64 16); (7, Frame.Build 7 8 8)].

Definition sprite0 : Sprite.t :=
  Sprite.Build (Texture.Build 0 0) (Events.Build [] [] []).

(** One sprite at address 1, one game at address 2 whose clock reads [t], and
    the instance [a] at address 3. *)
Definition world (a : Animation) (t : float) : Heap :=
  mkHeap {[3%positive := a]} {[1%positive := sprite0]}
    {[2%positive := Game.Build (Time.Build t)]}.

(** Three frames at ten frames a second (100 ms a frame), played once. *)
Definition walk : Animation :=
  constructor 2 1 atlas "walk" [0; 1; 2] 10 false.

(** The same frames, looped. *)
Definition spin : Animation :=
  constructor 2 1 atlas "spin" [0; 1; 2] 10 true.


(** The cursor of the instance at [self]. *)
Definition cursor (h : Heap) (self : loc) : option Z :=
  _frameIndex <$> animations h !! self.

(** One turn of the driver loop: the clock of game [g] moves to [t], then
    [update()] is called on [self]. *)
Definition tick (self g : loc) (h : Heap) (t : float) : Heap :=
  final (update self (set_now g t h)).

(** The world of [a] after [play()] at time 0 and one [update()] at each of
    the clock readings [times]. *)
Definition driven (a : Animation) (times : list float) : Heap :=
  fold_left (tick 3 2) times (final (play 3 None None (world a 0))).

(** ** Longer runs *)

(** What a driver does between two observations: it calls a method, catching
    whatever the call throws, or the clock of a game moves. *)
Inductive Step : Type :=
| StepCall (c : Call)
| StepClock (g : loc) (t : float).

Definition step (self : loc) (h : Heap) (s : Step) : Heap :=
  match s with
  | StepCall c => final (run c self h)
  | StepClock g t => set_now g t h
  end.

(** The store after the steps [steps], in order. *)
Definition drive (self : loc) (steps : list Step) (h : Heap) : Heap :=
  fold_left (step self) steps h.

(** The call is not [destroy]. *)
Definition not_destroy (c : Call) : bool :=
  match c with
  | CallDestroy => false
  | _ => true
  end.

(** None of the steps calls [destroy]. *)
Definition no_destroy (steps : list Step) : bool :=
  forallb
    (fun s => match s with
              | StepCall c => not_destroy c
              | StepClock _ _ => true
              end) steps.

(** The call passes no rate and no loop flag. *)
Definition no_override (c : Call) : bool :=
  match c with
  | CallPlay None None => true
  | CallPlay _ _ => false
  | _ => true
  end.

(** None of the steps passes a rate or a loop flag. *)
Definition no_overrides (steps : list Step) : bool :=
  forallb
    (fun s => match s with
              | StepCall c => no_override c
              | StepClock _ _ => true
              end) steps.

(** The store after one [update()] at each of the clock readings [times] of
    game [g], when every one of these calls returns true; [None] when one of
    them returns false or throws. *)
Fixpoint advances (self g : loc) (times : list float) (h : Heap) : option Heap :=
  match times with
  | [] => Some h
  | t :: ts =>
      match update self (set_now g t h) with
      | Ok true h' => advances self g ts h'
      | _ => None
      end
  end.

(** Every clock reading of [times] is due: the first one has reached [next],
    and each following one the reading before it plus [d]. *)
Fixpoint on_time (d : float) (next : option float) (times : list float) : bool :=
  match times with
  | [] => true
  | t :: ts => js_ge t next && on_time d (Some (t + d)%float) ts
  end.

(** [isPlaying] and [isFinished] are not both set. *)
Definition exclusive (a : Animation) : bool :=
  negb (isPlaying a && isFinished a).

(** The next advance is due one [delay] after the last one. *)
Definition timed (a : Animation) : Prop :=
  match _timeLastFrame a, _timeNextFrame a with
  | Some l, Some n => n = (l + delay a)%float
  | _, _ => False
  end.

(** [currentFrame] is the frame of the key under the cursor. *)
Definition synced (fs : list Z) (fd : FrameData.t) (a : Animation) : Prop :=
  currentFrame a = FrameData.getFrame fd (array_get fs (_frameIndex a)).

(** The references and the name of an instance. *)
Definition same_setup (a a' : Animation) : Prop :=
  game a' = game a /\ _parent a' = _parent a /\ _frames a' = _frames a /\
  _frameData a' = _frameData a /\ name a' = name a.

(** The clock of [a] can be read, and [a] is timed if it is playing. *)
Definition on_the_clock (h : Heap) (a : Animation) : Prop :=
  is_Some (clock_of h a) /\ (isPlaying a = true -> timed a).

(** The store after a due advance of [a] at clock reading [t], branch by
    branch. *)
Definition after_advance (self : loc) (t : float) (fs : list Z)
    (fd : FrameData.t) (p : loc) (s : Sprite.t) (a : Animation) (h : Heap) : Heap :=
  if _frameIndex a + 1 =? Z.of_nat (length fs) then
    if looped a then
      put self
        (stamped t
           (set_currentFrame (FrameData.getFrame fd (array_get fs 0))
              (set__frameIndex 0 a)))
        (put_sprite p (Sprite.dispatched Looped (p, self) s) h)
    else
      put self
        (stamped t
           (set_isFinished true
              (set_isPlaying false (set__frameIndex (_frameIndex a + 1) a))))
        (put_sprite p (Sprite.dispatched Completed (p, self) s) h)
  else
    put self
      (stamped t
         (set_currentFrame
            (FrameData.getFrame fd (array_get fs (_frameIndex a + 1)))
            (set__frameIndex (_frameIndex a + 1) a))) h.

(** The signals a call can dispatch. *)
Definition may_dispatch (c : Call) (ch : Channel) : bool :=
  match c, ch with
  | CallPlay _ _, Started => true
  | CallUpdate, Looped => true
  | CallUpdate, Completed => true
  | _, _ => false
  end.

(** The calls that can write the texture size. *)
Definition may_resize (c : Call) : bool :=
  match c with
  | CallSetFrame _ => true
  | _ => false
  end.

(** ** Symbolic execution *)

Ltac exec :=
  repeat first
    [ progress unfold bind, ret, throw, nonnull, this, assign, load_game,
        load_sprite, store_sprite
    | progress cbn [final with_animations with_sprites put put_sprite
                    animations sprites games
                    game _parent _frames _frameData _frameIndex _timeLastFrame
                    _timeNextFrame name currentFrame isFinished isPlaying looped delay
                    set_game set__parent set__frames set__frameData set__frameIndex
                    set__timeLastFrame set__timeNextFrame set_currentFrame
                    set_isFinished set_isPlaying set_looped set_delay
                    stamped reset_at destroyed]
    | rewrite lookup_insert_eq
    | rewrite insert_insert_eq
    | match goal with
      | H : ?x = _ |- context [?x] => rewrite H
      end ].

(** Opens the store and the side conditions of a statement. *)
Ltac open_heap h :=
  destruct h as [?A ?S ?G];
  unfold holds, clock_of, parent_of in *;
  cbn [animations sprites games] in *;
  repeat match goal with
    | H : match ?o with Some _ => _ | None => None end = Some _ |- _ =>
        let E := fresh "E" in destruct o eqn:E; [ | discriminate H ]
    | H : Some _ = Some _ |- _ => injection H as H
    | H : (_, _) = (_, _) |- _ => injection H as ? H
    end;
  subst.

(** Follows every path of a method: executes, and splits on whatever the next
    step depends on. *)
Ltac crunch :=
  repeat first
    [ progress exec
    | match goal with
      | |- context [match ?x with Some _ => _ | None => _ end] =>
          destruct x eqn:?
      | |- context [if ?b then _ else _] => destruct b eqn:?
      end ].

(** Brings the facts collected along a path into arithmetic form. *)
Ltac facts :=
  repeat match goal with
    | H : (_ =? _) = true |- _ => apply Z.eqb_eq in H
    | H : (_ =? _) = false |- _ => apply Z.eqb_neq in H
    | H : (_ <=? _) = true |- _ => apply Z.leb_le in H
    | H : (_ <? _) = true |- _ => apply Z.ltb_lt in H
    | H : _ && _ = true |- _ => apply andb_prop in H; destruct H
    | H : negb _ = true |- _ => apply negb_true_iff in H
    | H : negb _ = false |- _ => apply negb_false_iff in H
    | H : _ && _ = false |- _ => apply andb_false_iff in H; destruct H
    end.

(** Follows every path of the call [c]. *)
Ltac run_paths c :=
  destruct c;
  unfold run, set_frame, play, restart, stop, update, destroy,
    resolve_currentFrame, onComplete, dispatch, stamp_times, game_time_now,
    FrameData.getFrame;
  crunch.

(** Exhibits the instance that a path leaves at [self]. *)
Ltac found :=
  unfold holds; cbn [animations with_animations with_sprites];
  eexists; split;
  [ first [ reflexivity | apply lookup_insert_eq | eassumption ] | ].

(** Closes a goal that says a view of the sprites is as it was. *)
Ltac unchanged_map :=
  first
    [ reflexivity
    | cbn [sprites with_animations with_sprites];
      rewrite ?insert_insert_eq, fmap_insert; apply insert_id;
      rewrite lookup_fmap;
      match goal with H : _ !! _ = Some _ |- _ => rewrite H end; reflexivity ].

(** ** The order on doubles *)



(** ** What [update] does, case by case *)

Lemma update_idle_spec h self a :
  holds h self a -> isPlaying a = false ->
  update self h = Ok false h.
Proof.
  intros Ha Hp. open_heap h. unfold update. exec. reflexivity.
Qed.

Lemma update_wait_spec h self a t :
  holds h self a -> isPlaying a = true -> clock_of h a = Some t ->
  js_ge t (_timeNextFrame a) = false ->
  update self h = Ok false h.
Proof.
  intros Ha Hp Hc Hge. open_heap h. unfold update, game_time_now. exec.
  reflexivity.
Qed.

Lemma update_advance_spec h self a t fs fd :
  holds h self a -> isPlaying a = true -> clock_of h a = Some t ->
  js_ge t (_timeNextFrame a) = true ->
  _frames a = Some fs -> _frameData a = Some fd ->
  _frameIndex a + 1 <> Z.of_nat (length fs) ->
  update self h =
  Ok true
    (put self
       (stamped t
          (set_currentFrame
             (FrameData.getFrame fd (array_get fs (_frameIndex a + 1)))
             (set__frameIndex (_frameIndex a + 1) a))) h).
Proof.
  intros Ha Hp Hc Hge Hfs Hfd Hne. apply Z.eqb_neq in Hne. open_heap h.
  unfold update, resolve_currentFrame, stamp_times, game_time_now. exec.
  reflexivity.
Qed.

Lemma update_loop_spec h self a t fs fd p s :
  holds h self a -> isPlaying a = true -> clock_of h a = Some t ->
  js_ge t (_timeNextFrame a) = true ->
  _frames a = Some fs -> _frameData a = Some fd ->
  parent_of h a = Some (p, s) ->
  at_last fs a -> looped a = true ->
  update self h =
  Ok true
    (put self
       (stamped t
          (set_currentFrame (FrameData.getFrame fd (array_get fs 0))
             (set__frameIndex 0 a)))
       (put_sprite p (Sprite.dispatched Looped (p, self) s) h)).
Proof.
  intros Ha Hp Hc Hge Hfs Hfd Hpar Hlast Hl. unfold at_last in Hlast.
  apply Z.eqb_eq in Hlast. open_heap h.
  unfold update, resolve_currentFrame, dispatch, stamp_times, game_time_now.
  exec. reflexivity.
Qed.

Lemma update_complete_spec h self a t fs p s :
  holds h self a -> isPlaying a = true -> clock_of h a = Some t ->
  js_ge t (_timeNextFrame a) = true ->
  _frames a = Some fs ->
  parent_of h a = Some (p, s) ->
  at_last fs a -> looped a = false ->
  update self h =
  Ok true
    (put self
       (stamped t
          (set_isFinished true
             (set_isPlaying false (set__frameIndex (_frameIndex a + 1) a))))
       (put_sprite p (Sprite.dispatched Completed (p, self) s) h)).
Proof.
  intros Ha Hp Hc Hge Hfs Hpar Hlast Hl. unfold at_last in Hlast.
  apply Z.eqb_eq in Hlast. open_heap h.
  unfold update, onComplete, dispatch, stamp_times, game_time_now.
  exec. reflexivity.
Qed.

(** ** What the other methods do *)

Lemma play_spec h self a frameRate loop t fs fd p s :
  holds h self a -> clock_of h a = Some t ->
  _frames a = Some fs -> _frameData a = Some fd ->
  parent_of h a = Some (p, s) ->
  play self frameRate loop h =
  Ok self
    (put self (reset_at t fs fd (overridden frameRate loop a))
       (put_sprite p (Sprite.dispatched Started (p, self) s) h)).
Proof.
  intros Ha Hc Hfs Hfd Hpar. open_heap h.
  unfold play, resolve_currentFrame, dispatch, stamp_times, game_time_now,
    overridden.
  destruct frameRate, loop; exec; reflexivity.
Qed.

Lemma restart_spec h self a t fs fd :
  holds h self a -> clock_of h a = Some t ->
  _frames a = Some fs -> _frameData a = Some fd ->
  restart self h = Ok tt (put self (reset_at t fs fd a) h).
Proof.
  intros Ha Hc Hfs Hfd. open_heap h.
  unfold restart, resolve_currentFrame, stamp_times, game_time_now.
  exec. reflexivity.
Qed.

Lemma stop_spec h self a :
  holds h self a ->
  stop self h = Ok tt (put self (set_isFinished true (set_isPlaying false a)) h).
Proof.
  intros Ha. open_heap h. unfold stop. exec. reflexivity.
Qed.

Lemma destroy_spec h self a :
  holds h self a ->
  destroy self h = Ok tt (put self (destroyed a) h).
Proof.
  intros Ha. open_heap h. unfold destroy. exec. reflexivity.
Qed.

Lemma set_frame_absent h self a fd value :
  holds h self a -> _frameData a = Some fd -> fd !! value = None ->
  set_frame self value h = Ok tt (put self (set_currentFrame None a) h).
Proof.
  intros Ha Hfd Hv. open_heap h. unfold set_frame, FrameData.getFrame. exec.
  reflexivity.
Qed.

Lemma set_frame_present h self a fd value f p s :
  holds h self a -> _frameData a = Some fd -> fd !! value = Some f ->
  parent_of h a = Some (p, s) ->
  set_frame self value h =
  Ok tt
    (put self (set__frameIndex value (set_currentFrame (Some f) a))
       (put_sprite p
          (Sprite.Build (Texture.Build (Frame.width f) (Frame.height f))
             (Sprite.events s)) h)).
Proof.
  intros Ha Hfd Hv Hpar. open_heap h. unfold set_frame, FrameData.getFrame.
  exec. reflexivity.
Qed.

(** ** Running the model *)

Example walk_delay : delay walk = 100%float.
Proof. reflexivity. Qed.

Example walk_first_frame : currentFrame walk = Some (Frame.Build 0 32 48).
Proof. reflexivity. Qed.

Example walk_frameTotal : frameTotal 3 (world walk 0) = Ok 3 (world walk 0).
Proof. reflexivity. Qed.

(** The getter reads the descriptor's own index, here after a seek to key 7. *)
Example frame_after_seek :
  frame 3 (final (set_frame 3 7 (world walk 0)))
  = Ok 7 (final (set_frame 3 7 (world walk 0))).
Proof. vm_compute. reflexivity. Qed.

(** Two updates 100 ms apart walk the cursor through the sequence. *)
Example walk_two_updates : cursor (driven walk [100; 200]%float) 3 = Some 2.
Proof. vm_compute. reflexivity. Qed.

(** An update that comes late advances one frame only. *)
Example walk_late_update : cursor (driven walk [1000]%float) 3 = Some 1.
Proof. vm_compute. reflexivity. Qed.

(** After [destroy], [update] still returns false, and [play] throws. *)
Example update_after_destroy :
  let h := final (destroy 3 (driven walk [100]%float)) in
  update 3 h = Ok false h.
Proof. vm_compute. reflexivity. Qed.

Example play_after_destroy :
  let h := final (destroy 3 (driven walk [100]%float)) in
  exists h', play 3 None None h = Throw h'.
Proof. eexists. vm_compute. reflexivity. Qed.

(** ** Properties of [update] *)

Lemma holds_put h self a : holds (put self a h) self a.
Proof. unfold holds, put. cbn. apply lookup_insert_eq. Qed.




Lemma signals_put c self a h : signals c (put self a h) = signals c h.
Proof. reflexivity. Qed.

Lemma signals_dispatched_same c p args s h :
  signals c (put_sprite p (Sprite.dispatched c args s) h) =
  <[p := Sprite.signal c s ++ [args]]> (signals c h).
Proof.
  unfold signals, put_sprite. cbn [sprites with_sprites].
  rewrite fmap_insert. destruct c; reflexivity.
Qed.

Lemma signals_dispatched_other c c' p args s h :
  c <> c' -> sprites h !! p = Some s ->
  signals c (put_sprite p (Sprite.dispatched c' args s) h) = signals c h.
Proof.
  intros Hne Hs. unfold signals, put_sprite. cbn [sprites with_sprites].
  rewrite fmap_insert. apply insert_id. rewrite lookup_fmap, Hs.
  destruct c, c'; try reflexivity; contradiction.
Qed.

Lemma parent_of_sprite h a p s :
  parent_of h a = Some (p, s) -> sprites h !! p = Some s.
Proof.
  unfold parent_of. destruct (_parent a) as [q|]; [ | discriminate ].
  destruct (sprites h !! q) eqn:E; [ | discriminate ].
  intros H. injection H as -> ->. exact E.
Qed.



(** What a call of [update()] that returns true has done to the timing
    fields, on every path. *)
Lemma update_true_inv h self a :
  holds h self a ->
  match update self h with
  | Ok true h' =>
      exists now a',
        clock_of h a = Some now /\ holds h' self a' /\
        _timeLastFrame a' = Some now /\
        _timeNextFrame a' = Some (now + delay a)%float
  | _ => True
  end.
Proof.
  intros Ha. open_heap h.
  unfold update, resolve_currentFrame, onComplete, dispatch, stamp_times,
    game_time_now.
  crunch; try exact I;
    (eexists _, _; repeat split; reflexivity).
Qed.

(** C4 (as amended).  Every call of [update()] that returns true sets
    [_timeLastFrame] to the clock reading and [_timeNextFrame] to that reading
    plus [delay]: in the advance branch, in the loop branch and in the
    completion branch alike. *)
Theorem update_stamps_times h self a h' :
  holds h self a -> update self h = Ok true h' ->
  exists now a',
    clock_of h a = Some now /\ holds h' self a' /\
    _timeLastFrame a' = Some now /\
    _timeNextFrame a' = Some (now + delay a)%float.
Proof.
  intros Ha Hup. pose proof (update_true_inv h self a Ha) as H.
  rewrite Hup in H. exact H.
Qed.

Lemma update_stamps_times_witness :
  let h := set_now 2 300 (driven walk [100; 200]%float) in
  let h' := final (update 3 h) in
  update 3 h = Ok true h' /\
  exists now a',
    clock_of h (stamped 200
                  (set_currentFrame (Some (Frame.Build 2 64 16))
                     (set__frameIndex 2 (reset_at 0 [0; 1; 2] atlas walk))))
      = Some now /\
    holds h' 3 a' /\
    _timeLastFrame a' = Some now /\
    _timeNextFrame a' = Some (now + 100)%float.
Proof.
  cbv zeta.
  assert (E : update 3 (set_now 2 300 (driven walk [100; 200]%float)) =
              Ok true
                (final (update 3 (set_now 2 300 (driven walk [100; 200]%float)))))
    by (vm_compute; reflexivity).
  split; [ exact E | ].
  exact (update_stamps_times (set_now 2 300 (driven walk [100; 200]%float)) 3
           (stamped 200
              (set_currentFrame (Some (Frame.Build 2 64 16))
                 (set__frameIndex 2 (reset_at 0 [0; 1; 2] atlas walk))))
           (final (update 3 (set_now 2 300 (driven walk [100; 200]%float))))
           eq_refl E).
Defined.

(** Two readings that the order on doubles tells apart are different. *)
Lemma reading_neq (x y : float) :
  PrimFloat.leb x y <> PrimFloat.leb y y -> Some (Some x) <> Some (Some y).
Proof.
  intros H E. apply H.
  exact (f_equal
           (fun o : option (option float) =>
              match o with
              | Some (Some v) => PrimFloat.leb v y
              | _ => PrimFloat.leb y y
              end) E).
Qed.

(** C4, the claim as stated fails: three frames played once from time 0 at
    100 ms a frame, updated at 100 and 200; the call at 300 is the completing
    one, and it moves the two timing fields from (200, 300) to (300, 400). *)
Lemma update_completion_stamps_times :
  let h := set_now 2 300 (driven walk [100; 200]%float) in
  let h' := final (update 3 h) in
  update 3 h = Ok true h' /\
  isFinished <$> animations h' !! 3%positive = Some true /\
  _timeLastFrame <$> animations h !! 3%positive = Some (Some 200%float) /\
  _timeNextFrame <$> animations h !! 3%positive = Some (Some 300%float) /\
  _timeLastFrame <$> animations h' !! 3%positive = Some (Some 300%float) /\
  _timeNextFrame <$> animations h' !! 3%positive = Some (Some 400%float) /\
  _timeLastFrame <$> animations h' !! 3%positive
    <> _timeLastFrame <$> animations h !! 3%positive /\
  _timeNextFrame <$> animations h' !! 3%positive
    <> _timeNextFrame <$> animations h !! 3%positive.
Proof.
  cbv zeta. repeat (split; [ vm_compute; reflexivity | ]).
  split; vm_compute; apply reading_neq; vm_compute; discriminate.
Qed.

(** No call dispatches the completed signal on an instance that is looped. *)
Lemma looped_never_completes h self a c :
  holds h self a -> looped a = true ->
  signals Completed (final (run c self h)) = signals Completed h.
Proof.
  intros Ha Hl. open_heap h.
  destruct c; unfold run, set_frame, play, restart, stop, update, destroy,
    resolve_currentFrame, onComplete, dispatch, stamp_times, game_time_now;
    crunch; try reflexivity; try discriminate;
    unfold signals; cbn [sprites with_animations with_sprites];
    rewrite ?insert_insert_eq, fmap_insert; apply insert_id;
    rewrite lookup_fmap;
    match goal with H : _ !! _ = Some _ |- _ => rewrite H end; reflexivity.
Qed.

(** C6.  For a playing, looped instance whose cursor is at the last position
    of its sequence, the next [update()] that is due returns true, puts the
    cursor back to 0, resolves [currentFrame] from the frame table for the
    first key, and dispatches the parent's looped signal exactly once, with
    [(parent, self)].  While [looped] is set, no call on the instance
    dispatches the completed signal. *)
Theorem update_loops h self a :
  holds h self a -> looped a = true ->
  (forall c, signals Completed (final (run c self h)) = signals Completed h) /\
  (forall now fs fd p s,
      isPlaying a = true -> _frames a = Some fs -> at_last fs a ->
      _frameData a = Some fd ->
      clock_of h a = Some now -> js_ge now (_timeNextFrame a) = true ->
      parent_of h a = Some (p, s) ->
      exists h' a',
        update self h = Ok true h' /\ holds h' self a' /\
        _frameIndex a' = 0 /\
        currentFrame a' = FrameData.getFrame fd (array_get fs 0) /\
        signals Looped h' =
          <[p := Sprite.signal Looped s ++ [(p, self)]]> (signals Looped h) /\
        signals Started h' = signals Started h /\
        signals Completed h' = signals Completed h).
Proof.
  intros Ha Hl. split.
  - intros c. apply (looped_never_completes h self a c Ha Hl).
  - intros now fs fd p s Hp Hfs Hlast Hfd Hc Hge Hpar.
    pose proof (parent_of_sprite h a p s Hpar) as Hs.
    eexists _, _. split.
    { apply (update_loop_spec h self a now fs fd p s); assumption. }
    split; [ apply holds_put | ].
    rewrite !signals_put, signals_dispatched_same.
    rewrite !signals_dispatched_other by (assumption || discriminate).
    repeat split.
Qed.

Lemma update_loops_witness :
  let h := set_now 2 300 (driven spin [100; 200]%float) in
  cursor h 3 = Some 2 /\
  signals Completed (final (run CallUpdate 3 h)) = signals Completed h /\
  exists h' a',
    update 3 h = Ok true h' /\ holds h' 3 a' /\
    _frameIndex a' = 0 /\
    currentFrame a' = Some (Frame.Build 0 32 48) /\
    signals Looped h' = {[1%positive := [(1%positive, 3%positive)]]} /\
    signals Completed h' = {[1%positive := []]}.
Proof.
  cbv zeta. split; [ reflexivity | ].
  destruct (update_loops (set_now 2 300 (driven spin [100; 200]%float)) 3
              (stamped 200
                 (set_currentFrame (Some (Frame.Build 2 64 16))
                    (set__frameIndex 2 (reset_at 0 [0; 1; 2] atlas spin))))
              eq_refl eq_refl) as [Hnever Hwrap].
  split; [ apply Hnever | ].
  destruct (Hwrap 300%float [0; 1; 2] atlas 1%positive
              (Sprite.dispatched Started (1%positive, 3%positive) sprite0)
              eq_refl eq_refl eq_refl eq_refl eq_refl eq_refl eq_refl)
    as (h' & a' & Hup & Hh & Hi & Hcur & Hsig & _ & Hcom).
  exists h', a'.
  exact (conj Hup (conj Hh (conj Hi (conj Hcur (conj Hsig Hcom))))).
Defined.

(** ** Properties of the frame setter *)

(** C5.  Seeking to a key that the frame table does not have overwrites
    [currentFrame] with [null] and changes nothing else: the cursor and every
    sprite, the parent's texture size included, are as before.  Seeking to a
    key that the table has stores the descriptor in [currentFrame] and the key
    in the cursor. *)
Theorem set_frame_seek h self a fd value :
  holds h self a -> _frameData a = Some fd ->
  (fd !! value = None ->
   exists h' a',
     set_frame self value h = Ok tt h' /\ holds h' self a' /\
     a' = set_currentFrame None a /\
     currentFrame a' = None /\ _frameIndex a' = _frameIndex a /\
     sprites h' = sprites h) /\
  (forall f p s,
      fd !! value = Some f -> parent_of h a = Some (p, s) ->
      exists h' a',
        set_frame self value h = Ok tt h' /\ holds h' self a' /\
        currentFrame a' = Some f /\ _frameIndex a' = value).
Proof.
  intros Ha Hfd. split.
  - intros Hv. eexists _, _. split.
    { apply (set_frame_absent h self a fd value); assumption. }
    split; [ apply holds_put | ]. repeat split.
  - intros f p s Hv Hpar. eexists _, _. split.
    { apply (set_frame_present h self a fd value f p s); assumption. }
    split; [ apply holds_put | ]. split; reflexivity.
Qed.

Lemma set_frame_seek_witness :
  atlas !! 5 = None /\ atlas !! 2 = Some (Frame.Build 2 64 16) /\
  (exists h' a',
      set_frame 3 5 (world walk 0) = Ok tt h' /\ holds h' 3 a' /\
      currentFrame a' = None /\ _frameIndex a' = 0 /\
      sprites h' = sprites (world walk 0)) /\
  (exists h' a',
      set_frame 3 2 (world walk 0) = Ok tt h' /\ holds h' 3 a' /\
      currentFrame a' = Some (Frame.Build 2 64 16) /\ _frameIndex a' = 2).
Proof.
  split; [ reflexivity | ]. split; [ reflexivity | ].
  destruct (set_frame_seek (world walk 0) 3 walk atlas 5 eq_refl eq_refl)
    as [Habsent _].
  destruct (set_frame_seek (world walk 0) 3 walk atlas 2 eq_refl eq_refl)
    as [_ Hpresent].
  split.
  - destruct (Habsent eq_refl) as (h' & a' & Hrun & Hh & _ & Hcur & Hi & Hs).
    exists h', a'. exact (conj Hrun (conj Hh (conj Hcur (conj Hi Hs)))).
  - exact (Hpresent (Frame.Build 2 64 16) 1%positive sprite0 eq_refl eq_refl).
Defined.

(** What [play] leaves alone: the texture size of every sprite. *)
Lemma play_keeps_textures h self frameRate loop :
  textures (final (play self frameRate loop h)) = textures h.
Proof.
  destruct h as [A S G].
  unfold play, resolve_currentFrame, dispatch, stamp_times, game_time_now.
  destruct frameRate, loop; crunch; try reflexivity;
    unfold textures; cbn [sprites with_animations with_sprites];
    rewrite fmap_insert; apply insert_id; rewrite lookup_fmap;
    match goal with H : _ !! _ = Some _ |- _ => rewrite H end; reflexivity.
Qed.

(** C7 (as amended).  The frame setter, when the key resolves, writes the
    width and height of the resolved descriptor onto the parent's texture and
    leaves every other sprite alone.  [play] writes no texture size: every
    sprite has the texture size it had before the call. *)
Theorem texture_size_writers h self a :
  holds h self a ->
  (forall fd value f p s,
      _frameData a = Some fd -> fd !! value = Some f ->
      parent_of h a = Some (p, s) ->
      exists h',
        set_frame self value h = Ok tt h' /\
        textures h' =
          <[p := Texture.Build (Frame.width f) (Frame.height f)]> (textures h)) /\
  (forall frameRate loop,
      textures (final (play self frameRate loop h)) = textures h).
Proof.
  intros Ha. split.
  - intros fd value f p s Hfd Hv Hpar. eexists. split.
    { apply (set_frame_present h self a fd value f p s); assumption. }
    unfold textures, put, put_sprite. cbn [sprites with_animations with_sprites].
    rewrite fmap_insert. reflexivity.
  - intros frameRate loop. apply play_keeps_textures.
Qed.

Lemma texture_size_writers_witness :
  textures (world walk 0) = {[1%positive := Texture.Build 0 0]} /\
  (exists h',
      set_frame 3 2 (world walk 0) = Ok tt h' /\
      textures h' = {[1%positive := Texture.Build 64 16]}) /\
  textures (final (play 3 None None (world walk 0))) =
    {[1%positive := Texture.Build 0 0]}.
Proof.
  split; [ reflexivity | ].
  destruct (texture_size_writers (world walk 0) 3 walk eq_refl) as [Hseek Hplay].
  split.
  - destruct (Hseek atlas 2 (Frame.Build 2 64 16) 1%positive sprite0
                eq_refl eq_refl eq_refl) as (h' & Hrun & Htex).
    exists h'. split; [ exact Hrun | ]. rewrite Htex. reflexivity.
  - rewrite Hplay. reflexivity.
Defined.

(** C7, the claim as stated fails: the parent's texture is 0 by 0, the first
    frame of the animation is 32 by 48; after [play()] the call has returned,
    [currentFrame] is that frame, and the texture is still 0 by 0. *)
Lemma play_leaves_texture_size :
  let h' := final (play 3 None None (world walk 0)) in
  play 3 None None (world walk 0) = Ok 3%positive h' /\
  currentFrame <$> animations h' !! 3%positive
    = Some (Some (Frame.Build 0 32 48)) /\
  Sprite.texture <$> sprites h' !! 1%positive = Some (Texture.Build 0 0) /\
  Sprite.texture <$> sprites h' !! 1%positive <> Some (Texture.Build 32 48).
Proof.
  cbv zeta. repeat (split; [ vm_compute; reflexivity | ]).
  vm_compute. discriminate.
Qed.

(** ** Properties of [play], [restart], [stop] and [destroy] *)

(** [restart] and [play] without arguments leave the same objects behind,
    whether they return or throw, and [restart] touches no sprite. *)
Lemma restart_play_same_objects h self :
  animations (final (restart self h)) = animations (final (play self None None h)) /\
  games (final (restart self h)) = games (final (play self None None h)) /\
  sprites (final (restart self h)) = sprites h.
Proof.
  destruct h as [A S G].
  unfold restart, play, resolve_currentFrame, dispatch, stamp_times,
    game_time_now.
  crunch; repeat split; reflexivity.
Qed.

(** C8.  [restart()] resets the instance exactly as [play()] without
    arguments does: [isPlaying] set, [isFinished] cleared, the cursor at 0,
    [currentFrame] resolved from the first key, [_timeLastFrame] the clock
    reading and [_timeNextFrame] that reading plus [delay], with [delay] and
    [looped] as they were.  The two calls differ in one thing: [play]
    dispatches the parent's started signal and [restart] dispatches
    nothing. *)
Theorem restart_is_play_without_started h self :
  animations (final (restart self h)) = animations (final (play self None None h)) /\
  games (final (restart self h)) = games (final (play self None None h)) /\
  sprites (final (restart self h)) = sprites h /\
  (forall a now fs fd p s,
      holds h self a -> clock_of h a = Some now ->
      _frames a = Some fs -> _frameData a = Some fd ->
      parent_of h a = Some (p, s) ->
      exists a',
        restart self h = Ok tt (put self a' h) /\
        play self None None h =
          Ok self
            (put_sprite p (Sprite.dispatched Started (p, self) s)
               (put self a' h)) /\
        isPlaying a' = true /\ isFinished a' = false /\ _frameIndex a' = 0 /\
        currentFrame a' = FrameData.getFrame fd (array_get fs 0) /\
        _timeLastFrame a' = Some now /\
        _timeNextFrame a' = Some (now + delay a)%float /\
        delay a' = delay a /\ looped a' = looped a /\
        a' = reset_at now fs fd a).
Proof.
  destruct (restart_play_same_objects h self) as (HA & HG & HS).
  repeat (split; [ assumption | ]).
  intros a now fs fd p s Ha Hc Hfs Hfd Hpar.
  exists (reset_at now fs fd a). split.
  { apply restart_spec; assumption. }
  split.
  { apply (play_spec h self a None None now fs fd p s); assumption. }
  repeat split.
Qed.

Lemma restart_is_play_without_started_witness :
  let h := set_now 2 250 (driven walk [100; 200]%float) in
  exists a',
    restart 3 h = Ok tt (put 3 a' h) /\
    play 3 None None h =
      Ok 3%positive
        (put_sprite 1
           (Sprite.dispatched Started (1%positive, 3%positive)
              (Sprite.dispatched Started (1%positive, 3%positive) sprite0))
           (put 3 a' h)) /\
    isPlaying a' = true /\ isFinished a' = false /\ _frameIndex a' = 0 /\
    currentFrame a' = Some (Frame.Build 0 32 48) /\
    _timeLastFrame a' = Some 250%float /\ _timeNextFrame a' = Some 350%float.
Proof.
  cbv zeta.
  destruct (restart_is_play_without_started
              (set_now 2 250 (driven walk [100; 200]%float)) 3)
    as (_ & _ & _ & H).
  destruct (H (stamped 200
                 (set_currentFrame (Some (Frame.Build 2 64 16))
                    (set__frameIndex 2 (reset_at 0 [0; 1; 2] atlas walk))))
              250%float [0; 1; 2] atlas 1%positive
              (Sprite.dispatched Started (1%positive, 3%positive) sprite0)
              eq_refl eq_refl eq_refl eq_refl eq_refl)
    as (a' & Hr & Hp & H1 & H2 & H3 & H4 & H5 & H6 & _).
  exists a'.
  exact (conj Hr (conj Hp (conj H1 (conj H2 (conj H3 (conj H4 (conj H5 H6))))))).
Defined.

(** C9.  [stop()] clears [isPlaying] and sets [isFinished], changes no other
    field, touches no sprite (so dispatches nothing) and no clock, and a
    second [stop()] leaves the store exactly as the first one did. *)
Theorem stop_idempotent h self a :
  holds h self a ->
  exists h1 a1,
    stop self h = Ok tt h1 /\ holds h1 self a1 /\
    isPlaying a1 = false /\ isFinished a1 = true /\
    a1 = set_isFinished true (set_isPlaying false a) /\
    sprites h1 = sprites h /\ games h1 = games h /\
    stop self h1 = Ok tt h1.
Proof.
  intros Ha. eexists _, _. split; [ apply (stop_spec h self a Ha) | ].
  split; [ apply holds_put | ]. repeat split.
  rewrite (stop_spec _ self _ (holds_put h self _)).
  unfold put. cbn [animations with_animations sprites games].
  rewrite insert_insert_eq. reflexivity.
Qed.

Lemma stop_idempotent_witness :
  let h := driven walk [100]%float in
  isPlaying <$> animations h !! 3%positive = Some true /\
  exists h1 a1,
    stop 3 h = Ok tt h1 /\ holds h1 3 a1 /\
    isPlaying a1 = false /\ isFinished a1 = true /\
    sprites h1 = sprites h /\ stop 3 h1 = Ok tt h1.
Proof.
  cbv zeta. split; [ reflexivity | ].
  destruct (stop_idempotent (driven walk [100]%float) 3
              (stamped 100
                 (set_currentFrame (Some (Frame.Build 1 32 48))
                    (set__frameIndex 1 (reset_at 0 [0; 1; 2] atlas walk))))
              eq_refl)
    as (h1 & a1 & Hs & Hh & Hp & Hf & _ & Hsp & _ & Hagain).
  exists h1, a1.
  exact (conj Hs (conj Hh (conj Hp (conj Hf (conj Hsp Hagain))))).
Defined.

(** C10.  [destroy()] nulls [game], [_parent], [_frames], [_frameData] and
    [currentFrame] and clears [isPlaying]; every other field of the instance
    ([isFinished], the cursor, [delay], [looped], the two timing fields and
    the name) keeps its value, and no other object is touched. *)
Theorem destroy_frame h self a :
  holds h self a ->
  exists h' a',
    destroy self h = Ok tt h' /\ holds h' self a' /\
    game a' = None /\ _parent a' = None /\ _frames a' = None /\
    _frameData a' = None /\ currentFrame a' = None /\ isPlaying a' = false /\
    isFinished a' = isFinished a /\ _frameIndex a' = _frameIndex a /\
    delay a' = delay a /\ looped a' = looped a /\
    _timeLastFrame a' = _timeLastFrame a /\
    _timeNextFrame a' = _timeNextFrame a /\ name a' = name a /\
    sprites h' = sprites h /\ games h' = games h.
Proof.
  intros Ha. exists (put self (destroyed a) h), (destroyed a).
  split; [ apply (destroy_spec h self a Ha) | ].
  split; [ apply holds_put | ]. repeat split.
Qed.

Lemma destroy_frame_witness :
  let h := driven walk [100]%float in
  exists h' a',
    destroy 3 h = Ok tt h' /\ holds h' 3 a' /\
    game a' = None /\ _parent a' = None /\ _frames a' = None /\
    _frameData a' = None /\ currentFrame a' = None /\ isPlaying a' = false /\
    isFinished a' = false /\ _frameIndex a' = 1 /\
    looped a' = false /\
    _timeLastFrame a' = Some 100%float /\ _timeNextFrame a' = Some 200%float.
Proof.
  cbv zeta.
  destruct (destroy_frame (driven walk [100]%float) 3
              (stamped 100
                 (set_currentFrame (Some (Frame.Build 1 32 48))
                    (set__frameIndex 1 (reset_at 0 [0; 1; 2] atlas walk))))
              eq_refl)
    as (h' & a' & Hd & Hh & H1 & H2 & H3 & H4 & H5 & H6 & H7 & H8 & _ & H10
        & H11 & H12 & _).
  exists h', a'.
  exact (conj Hd (conj Hh (conj H1 (conj H2 (conj H3 (conj H4 (conj H5
           (conj H6 (conj H7 (conj H8 (conj H10 (conj H11 H12)))))))))))).
Defined.

(** ** The range of the cursor *)

Lemma constructor_in_range game parent fd name frames delay looped :
  frames <> [] ->
  in_range (constructor game parent fd name frames delay looped).
Proof.
  intros Hne. unfold in_range, constructor. cbn.
  destruct frames; [ contradiction | ]. cbn [length]. lia.
Qed.

Lemma run_keeps_range h self a c :
  holds h self a -> in_range a -> keeps_range c h a = true ->
  exists a', holds (final (run c self h)) self a' /\ in_range a'.
Proof.
  intros Ha Hr Hk. open_heap h. unfold in_range in Hr.
  destruct (_frames a) as [fs|] eqn:Hfs; [ | contradiction ].
  unfold keeps_range, completing, seeks_outside, clock_of in Hk.
  cbn [games] in Hk.
  destruct c;
    unfold run, set_frame, play, restart, stop, update, destroy,
      resolve_currentFrame, onComplete, dispatch, stamp_times, game_time_now,
      FrameData.getFrame;
    crunch;
    repeat match goal with
      | H : ?x = _ |- _ =>
          tryif constr_eq H Hk then fail
          else match type of Hk with context [x] => rewrite H in Hk end
      end;
    cbn in Hk; try discriminate Hk;
    unfold holds; cbn [animations with_animations with_sprites];
    (eexists; split;
     [ first [ reflexivity | apply lookup_insert_eq | eassumption ] | ]);
    unfold in_range;
    cbn [_frames _frameIndex set_game set__parent set__frames set__frameData
         set__frameIndex set__timeLastFrame set__timeNextFrame set_currentFrame
         set_isFinished set_isPlaying set_looped set_delay];
    rewrite ?Hfs; facts; try lia.
Qed.

(** [play] and [restart] on a non-empty sequence: when the call returns, the
    cursor is a position of the sequence, wherever it was before. *)
Lemma reset_in_range h self a fs frameRate loop h' :
  holds h self a -> _frames a = Some fs -> fs <> [] ->
  restart self h = Ok tt h' \/ play self frameRate loop h = Ok self h' ->
  exists a', holds h' self a' /\ in_range a'.
Proof.
  intros Ha Hfs Hne Hrun.
  assert (Hlen : 0 < Z.of_nat (length fs))
    by (destruct fs; [ contradiction | cbn; lia ]).
  destruct (clock_of h a) as [t|] eqn:Hc.
  - destruct (_frameData a) as [fd|] eqn:Hfd.
    + destruct Hrun as [Hrun | Hrun].
      * rewrite (restart_spec h self a t fs fd Ha Hc Hfs Hfd) in Hrun.
        injection Hrun as <-. eexists. split; [ apply holds_put | ].
        unfold in_range. cbn. rewrite Hfs. lia.
      * revert Hrun. open_heap h.
        unfold play, resolve_currentFrame, dispatch, stamp_times, game_time_now.
        destruct frameRate, loop; crunch; intros Hrun; try discriminate Hrun;
          injection Hrun as <-; unfold holds; cbn [animations];
          (eexists; split; [ apply lookup_insert_eq | ]);
          unfold in_range; cbn; rewrite Hfs; lia.
    + exfalso. revert Hrun. open_heap h.
      unfold restart, play, resolve_currentFrame, dispatch, stamp_times,
        game_time_now.
      destruct frameRate, loop; crunch; intros [Hrun | Hrun]; discriminate Hrun.
  - exfalso. revert Hrun Hc. open_heap h.
    unfold restart, play, resolve_currentFrame, dispatch, stamp_times,
      game_time_now, clock_of. cbn [games].
    destruct frameRate, loop; crunch; intros [Hrun | Hrun]; intros;
      discriminate.
Qed.

(** C2 (as amended).  The cursor is a position of the frame sequence
    ([0 <= _frameIndex < length]) after construction with a non-empty
    sequence, and after every [play] or [restart] that returns.  The range is
    kept by [play], [restart] and [stop], by [update()] on every path other
    than the completing advance, and by the frame setter whenever the key does
    not resolve or is itself a position of the sequence.  The frame setter
    with a key that resolves makes that key the cursor, whatever the length of
    the sequence. *)
Theorem cursor_range :
  (forall game parent fd name frames delay looped,
      frames <> [] ->
      in_range (constructor game parent fd name frames delay looped)) /\
  (forall h self a c,
      holds h self a -> in_range a -> keeps_range c h a = true ->
      exists a', holds (final (run c self h)) self a' /\ in_range a') /\
  (forall h self a fs frameRate loop h',
      holds h self a -> _frames a = Some fs -> fs <> [] ->
      restart self h = Ok tt h' \/ play self frameRate loop h = Ok self h' ->
      exists a', holds h' self a' /\ in_range a') /\
  (forall h self a fd value f p s,
      holds h self a -> _frameData a = Some fd -> fd !! value = Some f ->
      parent_of h a = Some (p, s) ->
      exists h' a',
        set_frame self value h = Ok tt h' /\ holds h' self a' /\
        _frameIndex a' = value).
Proof.
  split; [ exact constructor_in_range | ].
  split; [ exact run_keeps_range | ].
  split; [ exact reset_in_range | ].
  intros h self a fd value f p s Ha Hfd Hv Hpar. eexists _, _. split.
  { apply (set_frame_present h self a fd value f p s); assumption. }
  split; [ apply holds_put | reflexivity ].
Qed.

Lemma cursor_range_witness :
  let playing := set_now 2 100 (driven walk []) in
  let seeked := final (set_frame 3 7 (world walk 0)) in
  in_range walk /\
  (exists a', holds (final (run CallUpdate 3 playing)) 3 a' /\ in_range a') /\
  (exists a', holds (final (restart 3 seeked)) 3 a' /\ in_range a') /\
  (exists h' a',
      set_frame 3 2 (world walk 0) = Ok tt h' /\ holds h' 3 a' /\
      _frameIndex a' = 2).
Proof.
  cbv zeta.
  destruct cursor_range as (Hnew & Hkeep & Hreset & Hseek).
  split.
  { apply (Hnew 2%positive 1%positive atlas "walk"%string [0; 1; 2]
             10%float false).
    discriminate. }
  split.
  { apply (Hkeep (set_now 2 100 (driven walk [])) 3%positive
             (reset_at 0 [0; 1; 2] atlas walk) CallUpdate).
    - reflexivity.
    - cbn. lia.
    - reflexivity. }
  split.
  { apply (Hreset (final (set_frame 3 7 (world walk 0))) 3%positive
             (set__frameIndex 7 (set_currentFrame (Some (Frame.Build 7 8 8)) walk))
             [0; 1; 2] None None).
    - reflexivity.
    - reflexivity.
    - discriminate.
    - left. vm_compute. reflexivity. }
  exact (Hseek (world walk 0) 3%positive walk atlas 2 (Frame.Build 2 64 16)
           1%positive sprite0 eq_refl eq_refl eq_refl eq_refl).
Defined.

Lemma holds_inj h self a a' : holds h self a -> holds h self a' -> a = a'.
Proof. unfold holds. intros H H'. rewrite H in H'. injection H' as H'. exact H'. Qed.

(** C2, the claim as stated fails on the frame setter: the sequence has three
    frames and the cursor is 0; the frame table has a frame under key 7; after
    [frame = 7] the cursor is 7. *)
Lemma set_frame_moves_cursor_out_of_range :
  let h := world walk 0 in
  let h' := final (set_frame 3 7 h) in
  (exists a, holds h 3 a /\ in_range a) /\
  set_frame 3 7 h = Ok tt h' /\
  cursor h' 3 = Some 7 /\
  ~ (exists a', holds h' 3 a' /\ in_range a').
Proof.
  cbv zeta. split.
  { exists walk. split; [ reflexivity | cbn; lia ]. }
  split; [ vm_compute; reflexivity | ].
  split; [ vm_compute; reflexivity | ].
  intros (a' & Hh & Hr).
  assert (Hh' : holds (final (set_frame 3 7 (world walk 0))) 3
                  (set__frameIndex 7
                     (set_currentFrame (Some (Frame.Build 7 8 8)) walk)))
    by reflexivity.
  rewrite <- (holds_inj _ _ _ _ Hh' Hh) in Hr. cbn in Hr. lia.
Qed.

(** What the completing [update()] leaves in the cursor: three frames played
    once from time 0, updated at 100, 200 and 300; the last call completes the
    animation and the cursor is 3, the length of the sequence. *)
Lemma completing_update_leaves_cursor_at_length :
  let h := set_now 2 300 (driven walk [100; 200]%float) in
  let h' := final (update 3 h) in
  cursor h 3 = Some 2 /\ update 3 h = Ok true h' /\ cursor h' 3 = Some 3.
Proof.
  cbv zeta. split; [ reflexivity | ]. split; vm_compute; reflexivity.
Qed.

(** ** Invariants of the playback state *)

Lemma set_now_holds g t h self a : holds h self a -> holds (set_now g t h) self a.
Proof. intros H. exact H. Qed.

Lemma run_exclusive h self a c :
  holds h self a -> exclusive a = true ->
  exists a', holds (final (run c self h)) self a' /\ exclusive a' = true.
Proof.
  intros Ha Hx. open_heap h. unfold exclusive in *.
  run_paths c; found;
    cbn [isPlaying isFinished set_game set__parent set__frames set__frameData
         set__frameIndex set__timeLastFrame set__timeNextFrame set_currentFrame
         set_isFinished set_isPlaying set_looped set_delay];
    try reflexivity; try assumption;
    repeat match goal with
      | H : isPlaying _ = _ |- _ => rewrite H in *
      end; try assumption; try reflexivity.
Qed.

(** A property of the instance at [self] that every admitted call keeps on
    every path, and that no clock change affects, holds after any run of
    admitted steps. *)
Section DriveInvariant.
Variable self : loc.
Variable P : Heap -> Animation -> Prop.
Variable admitted : Call -> bool.
Hypothesis call_keeps :
  forall h a c,
    holds h self a -> P h a -> admitted c = true ->
    exists a', holds (final (run c self h)) self a' /\ P (final (run c self h)) a'.
Hypothesis clock_keeps :
  forall h a g t, holds h self a -> P h a -> P (set_now g t h) a.

Lemma drive_invariant steps h a :
  holds h self a -> P h a ->
  forallb (fun s => match s with
                    | StepCall c => admitted c
                    | StepClock _ _ => true
                    end) steps = true ->
  exists a', holds (drive self steps h) self a' /\ P (drive self steps h) a'.
Proof.
  revert h a. induction steps as [ | s steps IH ]; intros h a Ha HP Hok.
  - exists a. split; assumption.
  - cbn [forallb] in Hok. apply andb_prop in Hok. destruct Hok as [Hs Hok].
    destruct s as [ c | g t ]; cbn [drive fold_left step].
    + destruct (call_keeps h a c Ha HP Hs) as (a1 & Ha1 & HP1).
      exact (IH _ a1 Ha1 HP1 Hok).
    + exact (IH _ a (set_now_holds g t h self a Ha) (clock_keeps h a g t Ha HP) Hok).
Qed.
End DriveInvariant.

(** X1.  [isPlaying] and [isFinished] are never both set: the constructor
    clears both, and every method keeps them exclusive on every path, whether
    it returns or throws; so they are exclusive after any run of calls and
    clock changes on a new instance. *)
Theorem flags_exclusive self g p fd nm frames rate loop steps h :
  holds h self (constructor g p fd nm frames rate loop) ->
  exists a', holds (drive self steps h) self a' /\ exclusive a' = true.
Proof.
  intros Ha.
  apply (drive_invariant self (fun _ a => exclusive a = true) (fun _ => true))
    with (a := constructor g p fd nm frames rate loop).
  - intros h0 a c H0 HP _. exact (run_exclusive h0 self a c H0 HP).
  - intros h0 a g1 t _ HP. exact HP.
  - exact Ha.
  - reflexivity.
  - clear. induction steps as [ | [ c | g1 t ] steps IH ]; cbn; auto.
Qed.

Lemma run_same_setup h self a0 a c :
  holds h self a -> same_setup a0 a -> not_destroy c = true ->
  exists a', holds (final (run c self h)) self a' /\ same_setup a0 a'.
Proof.
  intros Ha Hs Hc. open_heap h. unfold same_setup in *.
  destruct Hs as (<- & <- & <- & <- & <-).
  run_paths c; try discriminate Hc; found; repeat split;
    cbn [game _parent _frames _frameData name
         set_game set__parent set__frames set__frameData
         set__frameIndex set__timeLastFrame set__timeNextFrame set_currentFrame
         set_isFinished set_isPlaying set_looped set_delay];
    first [ assumption | reflexivity ].
Qed.

(** X2.  No method other than [destroy] touches the references or the name
    of an instance, on any path: after any run of calls without [destroy],
    and of clock changes, the frame sequence, the frame table, the game, the
    parent and the name are the ones the instance had, and [frameTotal] is the
    length of that same sequence. *)
Theorem setup_is_kept self a fs steps h :
  holds h self a -> _frames a = Some fs -> no_destroy steps = true ->
  frameTotal self h = Ok (Z.of_nat (length fs)) h /\
  exists a',
    holds (drive self steps h) self a' /\ same_setup a a' /\
    frameTotal self (drive self steps h)
      = Ok (Z.of_nat (length fs)) (drive self steps h).
Proof.
  intros Ha Hfs Hnd.
  assert (Htotal : forall h0 a0,
             holds h0 self a0 -> _frames a0 = Some fs ->
             frameTotal self h0 = Ok (Z.of_nat (length fs)) h0).
  { intros h0 a0 H0 Hf. open_heap h0. unfold frameTotal. exec. reflexivity. }
  split; [ exact (Htotal h a Ha Hfs) | ].
  destruct (drive_invariant self (fun _ a' => same_setup a a') not_destroy)
    with (steps := steps) (h := h) (a := a) as (a' & Ha' & Hs').
  - intros h0 a0 c H0 HP Hc. exact (run_same_setup h0 self a a0 c H0 HP Hc).
  - intros h0 a0 g t _ HP. exact HP.
  - exact Ha.
  - repeat split.
  - exact Hnd.
  - exists a'. split; [ exact Ha' | ]. split; [ exact Hs' | ].
    apply (Htotal _ a' Ha'). destruct Hs' as (_ & _ & -> & _). exact Hfs.
Qed.

Lemma run_on_the_clock h self a c :
  holds h self a -> on_the_clock h a -> not_destroy c = true ->
  exists a', holds (final (run c self h)) self a' /\
             on_the_clock (final (run c self h)) a'.
Proof.
  intros Ha [[t Hc] Ht] Hnd. open_heap h. unfold on_the_clock, timed in *.
  run_paths c; try discriminate Hnd; found;
    (split;
     [ unfold clock_of;
       cbn [game games with_animations with_sprites
            set_game set__parent set__frames set__frameData
            set__frameIndex set__timeLastFrame set__timeNextFrame
            set_currentFrame set_isFinished set_isPlaying set_looped set_delay];
       repeat match goal with H : _ = Some _ |- _ => rewrite H end; eexists;
       reflexivity
     | cbn [isPlaying _timeLastFrame _timeNextFrame delay
            set_game set__parent set__frames set__frameData
            set__frameIndex set__timeLastFrame set__timeNextFrame
            set_currentFrame set_isFinished set_isPlaying set_looped set_delay];
       first [ reflexivity | discriminate | assumption
             | intros _; reflexivity
             | intros _; apply Ht; assumption
             | intros Hq; congruence ] ]).
Qed.

(** X3.  Whenever an instance is playing, its next advance is due exactly one
    [delay] after its last one ([_timeNextFrame = _timeLastFrame + delay]):
    this holds after any run of calls without [destroy], and of clock
    changes, on a new instance whose game is in the store, because [play],
    [restart] and every [update()] that returns true write both fields from
    the same clock reading and the current [delay]. *)
Theorem playing_is_timed self g p fd nm frames rate loop steps h :
  holds h self (constructor g p fd nm frames rate loop) ->
  is_Some (games h !! g) -> no_destroy steps = true ->
  exists a',
    holds (drive self steps h) self a' /\
    (isPlaying a' = true -> timed a').
Proof.
  intros Ha [gm Hg] Hnd.
  destruct (drive_invariant self on_the_clock not_destroy)
    with (steps := steps) (h := h)
         (a := constructor g p fd nm frames rate loop)
    as (a' & Ha' & _ & Ht').
  - exact (fun h0 a0 c => run_on_the_clock h0 self a0 c).
  - intros h0 a0 g1 t _ [[t0 Hc] Ht]. split; [ | exact Ht ].
    unfold clock_of in *. destruct (game a0) as [g0|]; [ | discriminate ].
    unfold set_now. cbn [games].
    destruct (decide (g1 = g0)) as [->|Hne].
    + rewrite lookup_insert_eq. eexists. reflexivity.
    + rewrite lookup_insert_ne by exact Hne.
      destruct (games h0 !! g0); [ eexists; reflexivity | discriminate ].
  - exact Ha.
  - split; [ | discriminate ].
    unfold clock_of. cbn. rewrite Hg. eexists. reflexivity.
  - exact Hnd.
  - exists a'. split; assumption.
Qed.

(** ** After [destroy] *)

(** X4.  After [destroy()] the object is not inert.  [update()] returns
    false and changes nothing, [stop()] and a second [destroy()] return, and
    the frame getter returns the cursor; [frameTotal], the frame setter,
    [restart] and [play] throw.  [restart] and [play] throw only after they
    have set [isPlaying], and from then on [update()] throws as well. *)
Theorem after_destroy h self a :
  holds h self a ->
  let d := put self (destroyed a) h in
  destroy self h = Ok tt d /\
  update self d = Ok false d /\
  destroy self d = Ok tt d /\
  stop self d = Ok tt (put self (set_isFinished true (destroyed a)) h) /\
  frame self d = Ok (_frameIndex a) d /\
  frameTotal self d = Throw d /\
  (forall value, set_frame self value d = Throw d) /\
  (exists a',
      restart self d = Throw (put self a' h) /\ isPlaying a' = true /\
      update self (put self a' h) = Throw (put self a' h)) /\
  (forall frameRate loop,
      exists a',
        play self frameRate loop d = Throw (put self a' h) /\
        isPlaying a' = true /\
        update self (put self a' h) = Throw (put self a' h)).
Proof.
  intros Ha d. subst d. split; [ exact (destroy_spec h self a Ha) | ].
  open_heap h. unfold put. cbn [animations with_animations].
  repeat split.
  - unfold update. exec. reflexivity.
  - unfold destroy. exec. reflexivity.
  - unfold stop. exec. reflexivity.
  - unfold frame. exec. reflexivity.
  - unfold frameTotal. exec. reflexivity.
  - intros value. unfold set_frame. exec. reflexivity.
  - exists (set_isFinished false (set_isPlaying true (destroyed a))).
    repeat split.
    + unfold restart, stamp_times, game_time_now. exec. reflexivity.
    + unfold update, game_time_now. exec. reflexivity.
  - intros frameRate loop.
    exists (set_isFinished false
              (set_isPlaying true (overridden frameRate loop (destroyed a)))).
    repeat split.
    + unfold play, stamp_times, game_time_now, overridden.
      destruct frameRate, loop; exec; reflexivity.
    + unfold update, game_time_now, overridden.
      destruct frameRate, loop; exec; reflexivity.
Qed.

Lemma after_destroy_witness :
  let h := driven walk [100]%float in
  let d := final (destroy 3 h) in
  destroy 3 h = Ok tt d /\
  update 3 d = Ok false d /\
  frame 3 d = Ok 1 d /\
  frameTotal 3 d = Throw d /\
  exists a', play 3 None None d = Throw (put 3 a' h) /\ isPlaying a' = true.
Proof.
  cbv zeta.
  destruct (after_destroy (driven walk [100]%float) 3
              (stamped 100
                 (set_currentFrame (Some (Frame.Build 1 32 48))
                    (set__frameIndex 1 (reset_at 0 [0; 1; 2] atlas walk))))
              eq_refl)
    as (Hd & Hu & _ & _ & Hf & Ht & _ & _ & Hp).
  destruct (Hp None None) as (a' & Hplay & Hplaying & _).
  split; [ exact Hd | ]. split; [ exact Hu | ]. split; [ exact Hf | ].
  split; [ exact Ht | ]. exists a'. split; [ exact Hplay | exact Hplaying ].
Defined.

(** ** The frame getter and setter together *)

(** X5.  Reading [frame] back after assigning it.  When the key resolves the
    getter returns the [index] field of the resolved descriptor, which is the
    key only if the table stores each descriptor under its own index, and the
    seek has left the flags, the timing fields, [looped] and [delay] as they
    were; when the key does not resolve the getter returns the cursor the
    instance had before the assignment.  The getter changes nothing. *)
Theorem frame_set_then_get h self a fd value :
  holds h self a -> _frameData a = Some fd ->
  (fd !! value = None ->
   exists h',
     set_frame self value h = Ok tt h' /\
     frame self h' = Ok (_frameIndex a) h') /\
  (forall f p s,
      fd !! value = Some f -> parent_of h a = Some (p, s) ->
      exists h' a',
        set_frame self value h = Ok tt h' /\
        frame self h' = Ok (Frame.index f) h' /\
        holds h' self a' /\
        isPlaying a' = isPlaying a /\ isFinished a' = isFinished a /\
        _timeLastFrame a' = _timeLastFrame a /\
        _timeNextFrame a' = _timeNextFrame a /\
        looped a' = looped a /\ delay a' = delay a).
Proof.
  intros Ha Hfd. split.
  - intros Hv. eexists. split.
    { apply (set_frame_absent h self a fd value); assumption. }
    open_heap h. unfold frame. exec. reflexivity.
  - intros f p s Hv Hpar. eexists _, _. split.
    { apply (set_frame_present h self a fd value f p s); assumption. }
    split.
    { open_heap h. unfold frame. exec. reflexivity. }
    split; [ apply holds_put | ]. repeat split.
Qed.

Lemma frame_set_then_get_witness :
  let seeked := set_now 2 150 (driven walk [100]%float) in
  (exists h', set_frame 3 5 seeked = Ok tt h' /\ frame 3 h' = Ok 1 h') /\
  (exists h' a',
      set_frame 3 7 seeked = Ok tt h' /\ frame 3 h' = Ok 7 h' /\
      holds h' 3 a' /\ isPlaying a' = true).
Proof.
  cbv zeta.
  destruct (frame_set_then_get (set_now 2 150 (driven walk [100]%float)) 3
              (stamped 100
                 (set_currentFrame (Some (Frame.Build 1 32 48))
                    (set__frameIndex 1 (reset_at 0 [0; 1; 2] atlas walk))))
              atlas 5 eq_refl eq_refl) as [Habsent _].
  destruct (frame_set_then_get (set_now 2 150 (driven walk [100]%float)) 3
              (stamped 100
                 (set_currentFrame (Some (Frame.Build 1 32 48))
                    (set__frameIndex 1 (reset_at 0 [0; 1; 2] atlas walk))))
              atlas 7 eq_refl eq_refl) as [_ Hpresent].
  split; [ exact (Habsent eq_refl) | ].
  destruct (Hpresent (Frame.Build 7 8 8) 1%positive
              (Sprite.dispatched Started (1%positive, 3%positive) sprite0)
              eq_refl eq_refl)
    as (h' & a' & Hs & Hg & Hh & Hp & _).
  exists h', a'. exact (conj Hs (conj Hg (conj Hh Hp))).
Defined.

(** ** The rate and loop overrides *)

Lemma run_keeps_overrides h self a d l c :
  holds h self a -> delay a = d /\ looped a = l -> no_override c = true ->
  exists a', holds (final (run c self h)) self a' /\
             (delay a' = d /\ looped a' = l).
Proof.
  intros Ha [<- <-] Hc. open_heap h.
  destruct c as [ v | [r|] [b|] | | | | ]; try discriminate Hc;
    unfold run, set_frame, play, restart, stop, update, destroy,
      resolve_currentFrame, onComplete, dispatch, stamp_times, game_time_now,
      FrameData.getFrame;
    crunch; found; split;
    cbn [delay looped set_game set__parent set__frames set__frameData
         set__frameIndex set__timeLastFrame set__timeNextFrame set_currentFrame
         set_isFinished set_isPlaying set_looped set_delay];
    first [ reflexivity | assumption ].
Qed.

(** X6.  The overrides of [play] persist.  After [play(frameRate, loop)],
    [delay] is [1000 / frameRate] when a rate was given and [looped] is [loop]
    when a flag was given, and they stay so through any later run of calls
    that pass no override ([play()] without arguments, [restart], [stop],
    [update], the frame setter, [destroy]) and of clock changes: the values
    given to the constructor are not restored. *)
Theorem overrides_persist h self a frameRate loop t fs fd p s steps :
  holds h self a -> clock_of h a = Some t ->
  _frames a = Some fs -> _frameData a = Some fd ->
  parent_of h a = Some (p, s) ->
  no_overrides steps = true ->
  exists h1 a',
    play self frameRate loop h = Ok self h1 /\
    holds (drive self steps h1) self a' /\
    delay a' = match frameRate with
               | Some r => (1000 / r)%float
               | None => delay a
               end /\
    looped a' = match loop with
                | Some l => l
                | None => looped a
                end.
Proof.
  intros Ha Hc Hfs Hfd Hpar Hsteps.
  eexists. 
  destruct (drive_invariant self
              (fun _ a' =>
                 delay a' = match frameRate with
                            | Some r => (1000 / r)%float
                            | None => delay a
                            end /\
                 looped a' = match loop with
                             | Some l => l
                             | None => looped a
                             end) no_override)
    with (steps := steps)
         (h := put self (reset_at t fs fd (overridden frameRate loop a))
                 (put_sprite p (Sprite.dispatched Started (p, self) s) h))
         (a := reset_at t fs fd (overridden frameRate loop a))
    as (a' & Ha' & Hd & Hl).
  - intros h0 a0 c H0 HP Hno. exact (run_keeps_overrides h0 self a0 _ _ c H0 HP Hno).
  - intros h0 a0 g t0 _ HP. exact HP.
  - apply holds_put.
  - unfold overridden. destruct frameRate, loop; split; reflexivity.
  - exact Hsteps.
  - exists a'. split.
    { apply (play_spec h self a frameRate loop t fs fd p s); assumption. }
    split; [ exact Ha' | ]. split; assumption.
Qed.

Lemma overrides_persist_witness :
  exists h1 a',
    play 3 (Some 20%float) (Some true) (world walk 0) = Ok 3%positive h1 /\
    holds (drive 3 [StepClock 2 50; StepCall CallUpdate; StepCall CallStop;
                    StepClock 2 500; StepCall (CallPlay None None)] h1) 3 a' /\
    delay a' = 50%float /\ looped a' = true /\ looped walk = false.
Proof.
  destruct (overrides_persist (world walk 0) 3 walk (Some 20%float) (Some true)
              0%float [0; 1; 2] atlas 1%positive sprite0
              [StepClock 2 50; StepCall CallUpdate; StepCall CallStop;
               StepClock 2 500; StepCall (CallPlay None None)]
              eq_refl eq_refl eq_refl eq_refl eq_refl eq_refl)
    as (h1 & a' & Hp & Hh & Hd & Hl).
  exists h1, a'. exact (conj Hp (conj Hh (conj Hd (conj Hl eq_refl)))).
Defined.

(** ** Seeking during playback *)



(** ** A cursor at or past the length of the sequence *)

Lemma update_past_end h self a fs :
  holds h self a -> _frames a = Some fs ->
  Z.of_nat (length fs) <= _frameIndex a ->
  exists a',
    holds (final (update self h)) self a' /\ _frames a' = Some fs /\
    _frameIndex a <= _frameIndex a' <= _frameIndex a + 1 /\
    isPlaying a' = isPlaying a /\ isFinished a' = isFinished a /\
    sprites (final (update self h)) = sprites h.
Proof.
  intros Ha Hfs Hlen. open_heap h.
  unfold update, resolve_currentFrame, onComplete, dispatch, stamp_times,
    game_time_now.
  crunch; facts; try lia; found;
    cbn [_frames _frameIndex isPlaying isFinished set_game set__parent
         set__frames set__frameData set__frameIndex set__timeLastFrame
         set__timeNextFrame set_currentFrame set_isFinished set_isPlaying
         set_looped set_delay sprites with_animations with_sprites];
    repeat split; first [ assumption | reflexivity | lia | congruence ].
Qed.

(** X8.  [update()] never completes and never loops an animation whose
    cursor is at or past the length of its sequence, as it is on an empty
    sequence and after a seek to a key that is no position of the sequence:
    whatever the clock readings, the cursor only grows, [isPlaying] and
    [isFinished] keep their values, and no signal is dispatched. *)
Theorem past_the_end_never_completes h self g a fs times :
  holds h self a -> _frames a = Some fs ->
  Z.of_nat (length fs) <= _frameIndex a ->
  exists a',
    holds (fold_left (tick self g) times h) self a' /\
    _frameIndex a <= _frameIndex a' <= _frameIndex a + Z.of_nat (length times) /\
    isPlaying a' = isPlaying a /\ isFinished a' = isFinished a /\
    sprites (fold_left (tick self g) times h) = sprites h.
Proof.
  revert h a. induction times as [ | t times IH ]; intros h a Ha Hfs Hlen.
  - exists a. cbn. repeat split; first [ assumption | lia ].
  - cbn [fold_left].
    change (tick self g h t) with (final (update self (set_now g t h))).
    destruct (update_past_end (set_now g t h) self a fs Ha Hfs Hlen)
      as (a1 & Ha1 & Hfs1 & Hi1 & Hp1 & Hf1 & Hs1).
    destruct (IH _ a1 Ha1 Hfs1 ltac:(lia)) as (a' & Ha' & Hi' & Hp' & Hf' & Hs').
    exists a'. split; [ exact Ha' | ].
    split; [ cbn [length]; lia | ].
    split; [ congruence | ]. split; [ congruence | ].
    rewrite Hs', Hs1. reflexivity.
Qed.

Lemma past_the_end_never_completes_witness :
  let empty := constructor 2 1 atlas "none" [] 10 false in
  let h := final (play 3 None None (world empty 0)) in
  exists a',
    holds (fold_left (tick 3 2) [100; 200; 300; 400]%float h) 3 a' /\
    0 <= _frameIndex a' <= 4 /\ isPlaying a' = true /\ isFinished a' = false /\
    sprites (fold_left (tick 3 2) [100; 200; 300; 400]%float h) = sprites h.
Proof.
  cbv zeta.
  destruct (past_the_end_never_completes
              (final (play 3 None None
                        (world (constructor 2 1 atlas "none" [] 10 false) 0)))
              3 2
              (reset_at 0 [] atlas (constructor 2 1 atlas "none" [] 10 false))
              [] [100; 200; 300; 400]%float eq_refl eq_refl)
    as (a' & Hh & Hi & Hp & Hf & Hs).
  { cbn. lia. }
  exists a'. exact (conj Hh (conj Hi (conj Hp (conj Hf Hs)))).
Defined.

(** ** Runs of successful advances *)

Lemma update_due h self a now fs fd p s :
  holds h self a -> clock_of h a = Some now ->
  _frames a = Some fs -> _frameData a = Some fd ->
  parent_of h a = Some (p, s) ->
  isPlaying a = true -> js_ge now (_timeNextFrame a) = true ->
  update self h = Ok true (after_advance self now fs fd p s a h).
Proof.
  intros Ha Hc Hfs Hfd Hpar Hp Hge. unfold after_advance.
  destruct (_frameIndex a + 1 =? Z.of_nat (length fs)) eqn:E.
  - apply Z.eqb_eq in E. destruct (looped a) eqn:El.
    + apply (update_loop_spec h self a now fs fd p s); assumption.
    + apply (update_complete_spec h self a now fs p s); assumption.
  - apply Z.eqb_neq in E.
    apply (update_advance_spec h self a now fs fd); assumption.
Qed.

Lemma update_true_cases h self a now fs fd p s h' :
  holds h self a -> clock_of h a = Some now ->
  _frames a = Some fs -> _frameData a = Some fd ->
  parent_of h a = Some (p, s) ->
  update self h = Ok true h' ->
  isPlaying a = true /\ js_ge now (_timeNextFrame a) = true /\
  h' = after_advance self now fs fd p s a h.
Proof.
  intros Ha Hc Hfs Hfd Hpar Hup.
  destruct (isPlaying a) eqn:Hp.
  - destruct (js_ge now (_timeNextFrame a)) eqn:Hge.
    + rewrite (update_due h self a now fs fd p s Ha Hc Hfs Hfd Hpar Hp Hge) in Hup.
      apply (f_equal final) in Hup. cbn [final] in Hup. auto.
    + rewrite (update_wait_spec h self a now Ha Hp Hc Hge) in Hup.
      apply (f_equal (fun r => match r with Ok b _ => b | Throw _ => false end))
        in Hup. discriminate Hup.
  - rewrite (update_idle_spec h self a Ha Hp) in Hup.
    apply (f_equal (fun r => match r with Ok b _ => b | Throw _ => false end))
      in Hup. discriminate Hup.
Qed.

Lemma clock_of_set_now h a g t :
  game a = Some g -> clock_of (set_now g t h) a = Some t.
Proof.
  intros Hg. unfold clock_of, set_now. rewrite Hg. cbn [games].
  rewrite lookup_insert_eq. reflexivity.
Qed.

Lemma parent_of_intro h a p s :
  _parent a = Some p -> sprites h !! p = Some s -> parent_of h a = Some (p, s).
Proof. intros Hp Hs. unfold parent_of. rewrite Hp, Hs. reflexivity. Qed.

Lemma replicate_snoc {A} (m : nat) (x : A) :
  replicate m x ++ [x] = [x] ++ replicate m x.
Proof.
  induction m as [ | m IH ]; [ reflexivity | ].
  cbn [replicate]. rewrite <- app_comm_cons, IH. reflexivity.
Qed.

(** X9.  A looped run.  On a playing, looped instance whose cursor [c] is a
    position of its sequence of [n] frames, [k] calls of [update()] at clock
    readings that are each due all return true; afterwards the cursor is
    [(c + k) mod n], the parent's looped signal has been dispatched
    [(c + k) / n] times with [(parent, self)], once per wrap, the completed
    and started signals not at all, the instance is still playing, and
    [currentFrame] is the frame of the key under the cursor. *)
Theorem looped_run h self g a fs fd p s times :
  holds h self a -> game a = Some g ->
  _frames a = Some fs -> _frameData a = Some fd ->
  _parent a = Some p -> sprites h !! p = Some s ->
  isPlaying a = true -> looped a = true -> in_range a ->
  on_time (delay a) (_timeNextFrame a) times = true ->
  exists h' a' s',
    advances self g times h = Some h' /\ holds h' self a' /\
    sprites h' !! p = Some s' /\
    _frameIndex a' =
      (_frameIndex a + Z.of_nat (length times)) mod Z.of_nat (length fs) /\
    Sprite.signal Looped s' =
      Sprite.signal Looped s
      ++ replicate
           (Z.to_nat ((_frameIndex a + Z.of_nat (length times))
                      / Z.of_nat (length fs)))
           (p, self) /\
    Sprite.signal Completed s' = Sprite.signal Completed s /\
    Sprite.signal Started s' = Sprite.signal Started s /\
    isPlaying a' = true /\ isFinished a' = isFinished a /\
    (times <> [] -> synced fs fd a').
Proof.
  revert h a s. induction times as [ | t times IH ];
    intros h a s Ha Hg Hfs Hfd Hp Hs Hplay Hl Hr Hon.
  - unfold in_range in Hr. rewrite Hfs in Hr.
    exists h, a, s. cbn [advances length Z.of_nat].
    rewrite Z.add_0_r, Z.mod_small, Z.div_small by lia.
    cbn [Z.to_nat replicate]. rewrite app_nil_r.
    repeat split; try assumption. congruence.
  - cbn [on_time] in Hon. apply andb_prop in Hon. destruct Hon as [Hge Hon].
    cbn [advances].
    rewrite (update_due (set_now g t h) self a t fs fd p s Ha
               (clock_of_set_now h a g t Hg) Hfs Hfd
               (parent_of_intro (set_now g t h) a p s Hp Hs) Hplay Hge).
    unfold in_range in Hr. rewrite Hfs in Hr.
    unfold after_advance. rewrite Hl.
    replace (Z.of_nat (length (t :: times)))
      with (Z.of_nat (length times) + 1) by (cbn [length]; lia).
    destruct (_frameIndex a + 1 =? Z.of_nat (length fs)) eqn:E.
    + apply Z.eqb_eq in E.
      lazymatch goal with
      | |- context [advances self g times ?h2] =>
          destruct (IH h2
                      (stamped t
                         (set_currentFrame
                            (FrameData.getFrame fd (array_get fs 0))
                            (set__frameIndex 0 a)))
                      (Sprite.dispatched Looped (p, self) s))
            as (h' & a' & s' & Hadv & Ha' & Hs' & Hi & Hloop & Hcom & Hst & Hp' & Hf' & Hsy);
        [ apply holds_put | exact Hg | exact Hfs | exact Hfd | exact Hp
        | apply lookup_insert_eq | exact Hplay | exact Hl
        | unfold in_range; cbn; rewrite Hfs; lia | exact Hon | ]
      end.
      exists h', a', s'. split; [ exact Hadv | ]. split; [ exact Ha' | ].
      split; [ exact Hs' | ].
      cbn [_frameIndex stamped set__timeNextFrame set__timeLastFrame
           set_currentFrame set__frameIndex] in Hi, Hloop.
      replace (_frameIndex a + (Z.of_nat (length times) + 1))
        with (0 + Z.of_nat (length times) + 1 * Z.of_nat (length fs)) by lia.
      rewrite Z_mod_plus_full, Z_div_plus_full by lia.
      split; [ exact Hi | ]. split.
      { rewrite Hloop. rewrite Z2Nat.inj_add by (try apply Z.div_pos; lia).
        rewrite replicate_add. destruct s as [tx [e1 e2 e3]]. cbn.
        rewrite <- app_assoc. f_equal.
        change (Z.to_nat 1) with 1%nat. cbn [replicate].
        symmetry. apply replicate_snoc. }
      split; [ rewrite Hcom; destruct s as [tx [e1 e2 e3]]; reflexivity | ].
      split; [ rewrite Hst; destruct s as [tx [e1 e2 e3]]; reflexivity | ].
      split; [ exact Hp' | ]. split; [ exact Hf' | ].
      intros _. destruct times as [ | t' times' ].
      * cbn [advances] in Hadv. injection Hadv as <-.
        rewrite (holds_inj _ _ _ _ Ha' (holds_put _ self _)). reflexivity.
      * apply Hsy. discriminate.
    + apply Z.eqb_neq in E.
      lazymatch goal with
      | |- context [advances self g times ?h2] =>
          destruct (IH h2
                      (stamped t
                         (set_currentFrame
                            (FrameData.getFrame fd
                               (array_get fs (_frameIndex a + 1)))
                            (set__frameIndex (_frameIndex a + 1) a)))
                      s)
            as (h' & a' & s' & Hadv & Ha' & Hs' & Hi & Hloop & Hcom & Hst & Hp' & Hf' & Hsy);
        [ apply holds_put | exact Hg | exact Hfs | exact Hfd | exact Hp
        | exact Hs | exact Hplay | exact Hl
        | unfold in_range; cbn; rewrite Hfs; lia | exact Hon | ]
      end.
      exists h', a', s'. split; [ exact Hadv | ]. split; [ exact Ha' | ].
      split; [ exact Hs' | ].
      cbn [_frameIndex stamped set__timeNextFrame set__timeLastFrame
           set_currentFrame set__frameIndex] in Hi, Hloop.
      replace (_frameIndex a + (Z.of_nat (length times) + 1))
        with (_frameIndex a + 1 + Z.of_nat (length times)) by lia.
      split; [ exact Hi | ]. split; [ exact Hloop | ].
      split; [ exact Hcom | ]. split; [ exact Hst | ].
      split; [ exact Hp' | ]. split; [ exact Hf' | ].
      intros _. destruct times as [ | t' times' ].
      * cbn [advances] in Hadv. injection Hadv as <-.
        rewrite (holds_inj _ _ _ _ Ha' (holds_put _ self _)). reflexivity.
      * apply Hsy. discriminate.
Qed.

Lemma looped_run_witness :
  let h := driven spin [] in
  exists h' a' s',
    advances 3 2 [100; 200; 300; 400; 500; 600; 700]%float h = Some h' /\
    holds h' 3 a' /\ sprites h' !! 1%positive = Some s' /\
    _frameIndex a' = 1 /\
    Sprite.signal Looped s' = [(1%positive, 3%positive); (1%positive, 3%positive)] /\
    Sprite.signal Completed s' = [] /\ isPlaying a' = true.
Proof.
  cbv zeta.
  destruct (looped_run (driven spin []) 3 2 (reset_at 0 [0; 1; 2] atlas spin)
              [0; 1; 2] atlas 1%positive
              (Sprite.dispatched Started (1%positive, 3%positive) sprite0)
              [100; 200; 300; 400; 500; 600; 700]%float
              eq_refl eq_refl eq_refl eq_refl eq_refl eq_refl eq_refl eq_refl)
    as (h' & a' & s' & Hadv & Hh & Hs & Hi & Hl & Hc & _ & Hp & _).
  { cbn. lia. }
  { reflexivity. }
  exists h', a', s'.
  exact (conj Hadv (conj Hh (conj Hs (conj Hi (conj Hl (conj Hc Hp)))))).
Defined.

(** X10.  A run that is played once.  On a playing, non-looped instance
    whose cursor [c] is a position of its sequence of [n] frames and whose
    [currentFrame] is the frame under the cursor, [k <= n - c] calls of
    [update()] at clock readings that are each due all return true, and the
    cursor is [c + k] afterwards.  While [c + k < n] the instance is still
    playing, nothing has been dispatched and [currentFrame] is the frame under
    the cursor.  When [c + k = n] the last call has completed the animation:
    [isPlaying] is cleared, [isFinished] set, the completed signal has been
    dispatched exactly once with [(parent, self)], and [currentFrame] is the
    frame of the last key of the sequence. *)
Theorem played_once_run h self g a fs fd p s times :
  holds h self a -> game a = Some g ->
  _frames a = Some fs -> _frameData a = Some fd ->
  _parent a = Some p -> sprites h !! p = Some s ->
  isPlaying a = true -> looped a = false -> in_range a -> synced fs fd a ->
  on_time (delay a) (_timeNextFrame a) times = true ->
  _frameIndex a + Z.of_nat (length times) <= Z.of_nat (length fs) ->
  exists h' a' s',
    advances self g times h = Some h' /\ holds h' self a' /\
    sprites h' !! p = Some s' /\
    _frameIndex a' = _frameIndex a + Z.of_nat (length times) /\
    Sprite.signal Looped s' = Sprite.signal Looped s /\
    Sprite.signal Started s' = Sprite.signal Started s /\
    if _frameIndex a' <? Z.of_nat (length fs) then
      isPlaying a' = true /\ isFinished a' = isFinished a /\
      Sprite.signal Completed s' = Sprite.signal Completed s /\
      synced fs fd a'
    else
      isPlaying a' = false /\ isFinished a' = true /\
      Sprite.signal Completed s' = Sprite.signal Completed s ++ [(p, self)] /\
      currentFrame a' =
        FrameData.getFrame fd (array_get fs (Z.of_nat (length fs) - 1)).
Proof.
  revert h a s. induction times as [ | t times IH ];
    intros h a s Ha Hg Hfs Hfd Hp Hs Hplay Hl Hr Hsy Hon Hk.
  - unfold in_range in Hr. rewrite Hfs in Hr.
    exists h, a, s. cbn [advances length Z.of_nat].
    rewrite Z.add_0_r. destruct (Z.ltb_spec (_frameIndex a) (Z.of_nat (length fs)));
      [ | lia ].
    repeat split; assumption.
  - cbn [on_time] in Hon. apply andb_prop in Hon. destruct Hon as [Hge Hon].
    cbn [advances].
    rewrite (update_due (set_now g t h) self a t fs fd p s Ha
               (clock_of_set_now h a g t Hg) Hfs Hfd
               (parent_of_intro (set_now g t h) a p s Hp Hs) Hplay Hge).
    unfold in_range in Hr. rewrite Hfs in Hr.
    unfold after_advance. rewrite Hl.
    replace (Z.of_nat (length (t :: times)))
      with (Z.of_nat (length times) + 1) in * by (cbn [length]; lia).
    destruct (_frameIndex a + 1 =? Z.of_nat (length fs)) eqn:E.
    + apply Z.eqb_eq in E.
      destruct times as [ | t' times' ]; [ | cbn [length] in Hk; lia ].
      cbn [advances length Z.of_nat].
      eexists _, _, _. split; [ reflexivity | ]. split; [ apply holds_put | ].
      split; [ apply lookup_insert_eq | ].
      cbn [_frameIndex stamped set__timeNextFrame set__timeLastFrame
           set_isFinished set_isPlaying set__frameIndex].
      split; [ lia | ].
      split; [ destruct s as [tx [e1 e2 e3]]; reflexivity | ].
      split; [ destruct s as [tx [e1 e2 e3]]; reflexivity | ].
      destruct (Z.ltb_spec (_frameIndex a + 1) (Z.of_nat (length fs))); [ lia | ].
      split; [ reflexivity | ]. split; [ reflexivity | ].
      split; [ destruct s as [tx [e1 e2 e3]]; reflexivity | ].
      cbn. rewrite Hsy. replace (Z.of_nat (length fs) - 1) with (_frameIndex a) by lia.
      reflexivity.
    + apply Z.eqb_neq in E.
      lazymatch goal with
      | |- context [advances self g times ?h2] =>
          destruct (IH h2
                      (stamped t
                         (set_currentFrame
                            (FrameData.getFrame fd
                               (array_get fs (_frameIndex a + 1)))
                            (set__frameIndex (_frameIndex a + 1) a)))
                      s)
            as (h' & a' & s' & Hadv & Ha' & Hs' & Hi & Hloop & Hst & Hrest);
            [ apply holds_put | exact Hg | exact Hfs | exact Hfd | exact Hp
            | exact Hs | exact Hplay | exact Hl
            | unfold in_range; cbn; rewrite Hfs; lia
            | reflexivity | exact Hon | cbn; lia | ]
      end.
      exists h', a', s'. split; [ exact Hadv | ]. split; [ exact Ha' | ].
      split; [ exact Hs' | ].
      cbn [_frameIndex stamped set__timeNextFrame set__timeLastFrame
           set_currentFrame set__frameIndex] in Hi.
      split; [ lia | ]. split; [ exact Hloop | ]. split; [ exact Hst | ].
      exact Hrest.
Qed.

Lemma played_once_run_witness :
  let h := driven walk [] in
  (exists h' a' s',
      advances 3 2 [100; 200]%float h = Some h' /\ holds h' 3 a' /\
      sprites h' !! 1%positive = Some s' /\ _frameIndex a' = 2 /\
      isPlaying a' = true /\ Sprite.signal Completed s' = []) /\
  (exists h' a' s',
      advances 3 2 [100; 200; 300]%float h = Some h' /\ holds h' 3 a' /\
      sprites h' !! 1%positive = Some s' /\ _frameIndex a' = 3 /\
      isPlaying a' = false /\ isFinished a' = true /\
      Sprite.signal Completed s' = [(1%positive, 3%positive)] /\
      currentFrame a' = Some (Frame.Build 2 64 16)).
Proof.
  cbv zeta. split.
  - destruct (played_once_run (driven walk []) 3 2
                (reset_at 0 [0; 1; 2] atlas walk) [0; 1; 2] atlas 1%positive
                (Sprite.dispatched Started (1%positive, 3%positive) sprite0)
                [100; 200]%float
                eq_refl eq_refl eq_refl eq_refl eq_refl eq_refl eq_refl eq_refl)
      as (h' & a' & s' & Hadv & Hh & Hs & Hi & _ & _ & Hrest).
    { cbn. lia. }
    { reflexivity. }
    { reflexivity. }
    { cbn. lia. }
    rewrite Hi in Hrest. destruct Hrest as (Hp & _ & Hc & _).
    exists h', a', s'.
    exact (conj Hadv (conj Hh (conj Hs (conj Hi (conj Hp Hc))))).
  - destruct (played_once_run (driven walk []) 3 2
                (reset_at 0 [0; 1; 2] atlas walk) [0; 1; 2] atlas 1%positive
                (Sprite.dispatched Started (1%positive, 3%positive) sprite0)
                [100; 200; 300]%float
                eq_refl eq_refl eq_refl eq_refl eq_refl eq_refl eq_refl eq_refl)
      as (h' & a' & s' & Hadv & Hh & Hs & Hi & _ & _ & Hrest).
    { cbn. lia. }
    { reflexivity. }
    { reflexivity. }
    { cbn. lia. }
    rewrite Hi in Hrest. destruct Hrest as (Hp & Hf & Hc & Hcur).
    exists h', a', s'.
    exact (conj Hadv (conj Hh (conj Hs (conj Hi (conj Hp (conj Hf (conj Hc Hcur))))))).
Defined.

Lemma advances_idle h self g a times :
  holds h self a -> isPlaying a = false -> times <> [] ->
  advances self g times h = None.
Proof.
  intros Ha Hp Hne. destruct times as [ | t times ]; [ contradiction | ].
  cbn [advances].
  rewrite (update_idle_spec (set_now g t h) self a Ha Hp). reflexivity.
Qed.

(** X11.  A run that is played once ends.  On a non-looped instance whose
    cursor [c] is a position of its sequence of [n] frames, no more than
    [n - c] calls of [update()] in a row can return true, whatever the clock
    readings: among any [k > n - c] calls, one returns false or throws. *)
Theorem played_once_ends h self g a fs fd p s times :
  holds h self a -> game a = Some g ->
  _frames a = Some fs -> _frameData a = Some fd ->
  _parent a = Some p -> sprites h !! p = Some s ->
  looped a = false -> in_range a ->
  Z.of_nat (length fs) < _frameIndex a + Z.of_nat (length times) ->
  advances self g times h = None.
Proof.
  revert h a s. induction times as [ | t times IH ];
    intros h a s Ha Hg Hfs Hfd Hp Hs Hl Hr Hk;
    unfold in_range in Hr; rewrite Hfs in Hr.
  - cbn [length Z.of_nat] in Hk. lia.
  - cbn [advances].
    destruct (update self (set_now g t h)) as [ [ | ] h2 | h2 ] eqn:E;
      try reflexivity.
    destruct (update_true_cases (set_now g t h) self a t fs fd p s h2 Ha
                (clock_of_set_now h a g t Hg) Hfs Hfd
                (parent_of_intro (set_now g t h) a p s Hp Hs) E)
      as (Hplay & _ & ->).
    unfold after_advance. rewrite Hl.
    replace (Z.of_nat (length (t :: times)))
      with (Z.of_nat (length times) + 1) in Hk by (cbn [length]; lia).
    destruct (_frameIndex a + 1 =? Z.of_nat (length fs)) eqn:E1.
    + apply Z.eqb_eq in E1.
      apply (advances_idle _ self g
               (stamped t
                  (set_isFinished true
                     (set_isPlaying false
                        (set__frameIndex (_frameIndex a + 1) a))))
               times (holds_put _ self _)).
      * reflexivity.
      * intros ->. cbn [length Z.of_nat] in Hk. lia.
    + apply Z.eqb_neq in E1.
      apply (IH _
               (stamped t
                  (set_currentFrame
                     (FrameData.getFrame fd (array_get fs (_frameIndex a + 1)))
                     (set__frameIndex (_frameIndex a + 1) a)))
               s);
        first [ assumption | apply holds_put
              | unfold in_range; cbn; rewrite Hfs; lia | cbn; lia ].
Qed.

Lemma played_once_ends_witness :
  advances 3 2 [100; 200; 300; 400]%float (driven walk []) = None.
Proof.
  apply (played_once_ends (driven walk []) 3 2
           (reset_at 0 [0; 1; 2] atlas walk) [0; 1; 2] atlas 1%positive
           (Sprite.dispatched Started (1%positive, 3%positive) sprite0)
           [100; 200; 300; 400]%float
           eq_refl eq_refl eq_refl eq_refl eq_refl eq_refl eq_refl).
  - cbn. lia.
  - cbn. lia.
Defined.

(** X12.  An instance that is not playing (new, stopped or completed)
    ignores [update()]: however often it is called and whatever the clock
    reads, no animation and no sprite changes; only the clock has moved. *)
Theorem idle_ignores_update h self g a times :
  holds h self a -> isPlaying a = false ->
  animations (fold_left (tick self g) times h) = animations h /\
  sprites (fold_left (tick self g) times h) = sprites h.
Proof.
  revert h. induction times as [ | t times IH ]; intros h Ha Hp.
  - split; reflexivity.
  - cbn [fold_left]. unfold tick at 2 4.
    rewrite (update_idle_spec (set_now g t h) self a Ha Hp). cbn [final].
    exact (IH (set_now g t h) Ha Hp).
Qed.

Lemma idle_ignores_update_witness :
  let h := final (stop 3 (driven walk [100]%float)) in
  animations (fold_left (tick 3 2) [200; 300; 1000]%float h) = animations h /\
  sprites (fold_left (tick 3 2) [200; 300; 1000]%float h) = sprites h.
Proof.
  cbv zeta.
  exact (idle_ignores_update (final (stop 3 (driven walk [100]%float))) 3 2
           (set_isFinished true
              (set_isPlaying false
                 (stamped 100
                    (set_currentFrame (Some (Frame.Build 1 32 48))
                       (set__frameIndex 1 (reset_at 0 [0; 1; 2] atlas walk))))))
           [200; 300; 1000]%float eq_refl eq_refl).
Defined.

Lemma flags_exclusive_witness :
  let steps :=
    [StepCall (CallPlay None None); StepClock 2 100; StepCall CallUpdate;
     StepCall CallStop; StepCall CallDestroy; StepCall CallRestart] in
  exists a', holds (drive 3 steps (world walk 0)) 3 a' /\ exclusive a' = true.
Proof.
  cbv zeta.
  exact (flags_exclusive 3 2%positive 1%positive atlas "walk"%string [0; 1; 2]
           10%float false
           [StepCall (CallPlay None None); StepClock 2 100; StepCall CallUpdate;
            StepCall CallStop; StepCall CallDestroy; StepCall CallRestart]
           (world walk 0) eq_refl).
Defined.

Lemma setup_is_kept_witness :
  let steps :=
    [StepCall (CallPlay (Some 20%float) None); StepClock 2 100;
     StepCall CallUpdate; StepCall (CallSetFrame 7); StepCall CallStop] in
  frameTotal 3 (world walk 0) = Ok 3 (world walk 0) /\
  exists a',
    holds (drive 3 steps (world walk 0)) 3 a' /\ same_setup walk a' /\
    frameTotal 3 (drive 3 steps (world walk 0))
      = Ok 3 (drive 3 steps (world walk 0)).
Proof.
  cbv zeta.
  exact (setup_is_kept 3 walk [0; 1; 2]
           [StepCall (CallPlay (Some 20%float) None); StepClock 2 100;
            StepCall CallUpdate; StepCall (CallSetFrame 7); StepCall CallStop]
           (world walk 0) eq_refl eq_refl eq_refl).
Defined.

Lemma playing_is_timed_witness :
  let steps :=
    [StepCall (CallPlay (Some 20%float) None); StepClock 2 75;
     StepCall CallUpdate; StepCall (CallSetFrame 7)] in
  exists a',
    holds (drive 3 steps (world walk 0)) 3 a' /\
    (isPlaying a' = true -> timed a').
Proof.
  cbv zeta.
  refine (playing_is_timed 3 2%positive 1%positive atlas "walk"%string [0; 1; 2]
            10%float false
            [StepCall (CallPlay (Some 20%float) None); StepClock 2 75;
             StepCall CallUpdate; StepCall (CallSetFrame 7)]
            (world walk 0) eq_refl _ eq_refl).
  eexists. reflexivity.
Defined.

(** ** What a call can reach *)

(** X13.  Who writes what on the parent sprite.  On every path of every
    call, whether it returns or throws: the started signal is dispatched by
    [play] only, the looped and the completed signal by [update] only, and
    the texture size is written by the frame setter only. *)
Theorem parent_writers h self c :
  (forall ch, may_dispatch c ch = false ->
              signals ch (final (run c self h)) = signals ch h) /\
  (may_resize c = false -> textures (final (run c self h)) = textures h).
Proof.
  destruct h as [A S G]. split.
  - intros ch Hch. unfold signals.
    destruct c, ch; try discriminate Hch;
      unfold run, set_frame, play, restart, stop, update, destroy,
        resolve_currentFrame, onComplete, dispatch, stamp_times, game_time_now,
        FrameData.getFrame;
      crunch; unchanged_map.
  - intros Hc. unfold textures.
    destruct c; try discriminate Hc;
      unfold run, set_frame, play, restart, stop, update, destroy,
        resolve_currentFrame, onComplete, dispatch, stamp_times, game_time_now,
        FrameData.getFrame;
      crunch; unchanged_map.
Qed.

(** X14.  A call is local to its instance: on every path of every call on
    [self], the clocks are as before and so is every other animation object,
    also one that has the same parent or the same game. *)
Theorem call_is_local h self c :
  games (final (run c self h)) = games h /\
  forall other, other <> self ->
    animations (final (run c self h)) !! other = animations h !! other.
Proof.
  destruct h as [A S G].
  destruct c;
    unfold run, set_frame, play, restart, stop, update, destroy,
      resolve_currentFrame, onComplete, dispatch, stamp_times, game_time_now,
      FrameData.getFrame;
    crunch; (split; [ reflexivity | ]); intros other Hne;
    cbn [animations with_animations with_sprites];
    first [ reflexivity | apply lookup_insert_ne; congruence ].
Qed.

Lemma call_is_local_witness :
  let h := put 4 spin (driven walk []) in
  let h' := final (run CallUpdate 3 (set_now 2 100 h)) in
  cursor h' 3 = Some 1 /\
  games h' = games (set_now 2 100 h) /\
  animations h' !! 4%positive = Some spin.
Proof.
  cbv zeta.
  destruct (call_is_local (set_now 2 100 (put 4 spin (driven walk []))) 3
              CallUpdate) as [Hg Ha].
  split; [ vm_compute; reflexivity | ]. split; [ exact Hg | ].
  rewrite (Ha 4%positive ltac:(discriminate)). reflexivity.
Defined.

Lemma parent_writers_witness :
  let h := set_now 2 300 (driven walk [100; 200]%float) in
  signals Started (final (run CallUpdate 3 h)) = signals Started h /\
  textures (final (run CallUpdate 3 h)) = textures h /\
  signals Completed (final (run (CallSetFrame 7) 3 h)) = signals Completed h.
Proof.
  cbv zeta.
  destruct (parent_writers (set_now 2 300 (driven walk [100; 200]%float)) 3
              CallUpdate) as [Hs Ht].
  destruct (parent_writers (set_now 2 300 (driven walk [100; 200]%float)) 3
              (CallSetFrame 7)) as [Hs' _].
  exact (conj (Hs Started eq_refl) (conj (Ht eq_refl) (Hs' Completed eq_refl))).
Defined.
